(** * Tegra186 PMC register-control core

    A shallow embedding of [drivers/platform/tegra/tegra186-pmc.c].

    Every driver routine is a program: a finite tree of the steps it asks
    of the machine (lock operations, MMIO reads and writes, busy-wait
    delays, log lines), written in a small monad.  A program is given two
    readings.  Run alone, it transforms the register block and leaves a
    record of its steps in program order.  Run next to a second program,
    its steps interleave with the other's under a schedule, and taking
    [tegra186_pmc_access_lock] waits for the lock to be free.

    The PMC register block is a finite map from byte offsets to register
    contents and behaves as storage: a register reads back the word last
    written to it.  Integer types of the C source are carried by [Z] with
    the conversions written out. *)

From Stdlib Require Import ZArith List String Bool Lia.
From stdpp Require Import gmap.

Local Open Scope Z_scope.
Import ListNotations.

(** ** C integer types *)

(** [u32], [unsigned int]: 32 bits. *)
Definition to_u32 (x : Z) : Z := x mod 2 ^ 32.

(** [unsigned long].  Tegra186 is an AArch64 part and the kernel is built
    for the LP64 data model. *)
Definition BITS_PER_LONG : Z := 64.
Definition to_ulong (x : Z) : Z := x mod 2 ^ BITS_PER_LONG.

Definition is_u32 (x : Z) : Prop := 0 <= x < 2 ^ 32.
Definition is_ulong (x : Z) : Prop := 0 <= x < 2 ^ BITS_PER_LONG.

(** [int]: 32 bits, two's complement; the kernel is built with
    [-fno-strict-overflow], so [int] arithmetic wraps. *)
Definition to_int (x : Z) : Z := (x + 2 ^ 31) mod 2 ^ 32 - 2 ^ 31.

(** [~x] at type [unsigned long]. *)
Definition ulong_not (x : Z) : Z := to_ulong (Z.lnot x).

(** A C scalar used as a condition. *)
Definition c_true (x : Z) : bool := negb (x =? 0).

(** [BIT(n)] is [1UL << n]. *)
Definition BIT (n : Z) : Z := to_ulong (Z.shiftl 1 n).

(** ** Register map *)

Definition PMC_SATA_PWRGT_0 : Z := 0x68.

Definition PMC_IO_DPD_REQ : Z := 0x74.
Definition PMC_IO_DPD_CSIA_MASK : Z := BIT 0.
Definition PMC_IO_DPD_CSIB_MASK : Z := BIT 1.

Definition PMC_IO_DPD_STATUS : Z := 0x78.
Definition PMC_IO_DPD2_REQ : Z := 0x7C.
Definition PMC_IO_DPD2_CSIC_MASK : Z := BIT 11.
Definition PMC_IO_DPD2_CSID_MASK : Z := BIT 12.
Definition PMC_IO_DPD2_CSIE_MASK : Z := BIT 13.
Definition PMC_IO_DPD2_CSIF_MASK : Z := BIT 14.

Definition PMC_IO_SEL_DPD_TIM : Z := 0xBC.

Definition PMC_UFSHC_PWR_CNTRL_0 : Z := 0xF4.

Definition PMC_FUSE_CTRL : Z := 0x100.
Definition PMC_FUSE_CTRL_ENABLE_REDIRECTION : Z := Z.shiftl 1 0.
Definition PMC_FUSE_CTRL_DISABLE_REDIRECTION : Z := Z.shiftl 1 1.
Definition PMC_FUSE_CTRL_PS18_LATCH_SET : Z := Z.shiftl 1 8.
Definition PMC_FUSE_CTRL_PS18_LATCH_CLEAR : Z := Z.shiftl 1 9.

Definition PMC_IMPL_RAMDUMP_CTL_STATUS : Z := 0x10c.
Definition PMC_IMPL_HALT_IN_FIQ_MASK : Z := BIT 28.

(** ** Driver routines as programs *)

(** What a routine asks of the machine, one step at a time. *)
Inductive action : Type :=
| DoSpinLock                     (* spin_lock(&tegra186_pmc_access_lock) *)
| DoSpinUnlock                   (* spin_unlock(...) *)
| DoSpinLockIrqsave              (* spin_lock_irqsave(...) *)
| DoSpinUnlockIrqrestore         (* spin_unlock_irqrestore(...) *)
| DoReadl (reg : Z)              (* readl(tegra186_pmc_base + reg) *)
| DoWritel (val reg : Z)         (* writel(val, tegra186_pmc_base + reg) *)
| DoUdelay (usecs : Z)
| DoMdelay (msecs : Z)
| DoPrInfo (fmt : string) (args : list Z).

(** A routine is a finite tree: it returns, or performs an action and goes
    on with the word the machine answers (the word read, for [DoReadl]). *)
Inductive pmc (A : Type) : Type :=
| Ret (a : A)
| Do (a : action) (k : Z -> pmc A).

Arguments Ret {A} a.
Arguments Do {A} a k.

Definition ret {A} (a : A) : pmc A := Ret a.

Fixpoint bind {A B} (c : pmc A) (k : A -> pmc B) : pmc B :=
  match c with
  | Ret a => k a
  | Do a h => Do a (fun v => bind (h v) k)
  end.

Declare Scope pmc_scope.
Delimit Scope pmc_scope with pmc.
Notation "x <- c ;; k" := (bind c (fun x => k))
  (at level 100, c at next level, right associativity) : pmc_scope.
Notation "c ;; k" := (bind c (fun _ => k))
  (at level 100, right associativity) : pmc_scope.
Local Open Scope pmc_scope.

Definition spin_lock : pmc unit := Do DoSpinLock (fun _ => Ret tt).
Definition spin_unlock : pmc unit := Do DoSpinUnlock (fun _ => Ret tt).
Definition spin_lock_irqsave : pmc unit := Do DoSpinLockIrqsave (fun _ => Ret tt).
Definition spin_unlock_irqrestore : pmc unit :=
  Do DoSpinUnlockIrqrestore (fun _ => Ret tt).
Definition udelay (usecs : Z) : pmc unit := Do (DoUdelay usecs) (fun _ => Ret tt).
Definition mdelay (msecs : Z) : pmc unit := Do (DoMdelay msecs) (fun _ => Ret tt).
Definition pr_info (fmt : string) (args : list Z) : pmc unit :=
  Do (DoPrInfo fmt args) (fun _ => Ret tt).

(** ** MMIO accessors *)

(** [static inline u32 tegra186_pmc_readl(u32 reg)] *)
Definition tegra186_pmc_readl (reg : Z) : pmc Z :=
  Do (DoReadl (to_u32 reg)) (fun v => Ret v).

(** [static inline void tegra186_pmc_writel(u32 val, u32 reg)] *)
Definition tegra186_pmc_writel (val reg : Z) : pmc unit :=
  Do (DoWritel (to_u32 val) (to_u32 reg)) (fun _ => Ret tt).

(** ** Register access core *)

(** [static void _tegra186_pmc_register_update(int offset,
      unsigned long mask, unsigned long val)]; the result of the
    [unsigned long] expression is stored into the [u32] local. *)
Definition _tegra186_pmc_register_update (offset mask val : Z) : pmc unit :=
  pmc_reg <- tegra186_pmc_readl offset ;;
  let pmc_reg := to_u32 (Z.lor (Z.land pmc_reg (ulong_not mask)) (Z.land val mask)) in
  tegra186_pmc_writel pmc_reg offset.

Definition tegra186_pmc_register_update (offset mask val : Z) : pmc unit :=
  spin_lock_irqsave ;;
  _tegra186_pmc_register_update offset mask val ;;
  spin_unlock_irqrestore.

(** [unsigned long tegra_pmc_register_get(u32 offset)] *)
Definition tegra_pmc_register_get (offset : Z) : pmc Z :=
  tegra186_pmc_readl offset.

(** ** DPD group controller *)

(** [int tegra186_pmc_io_dpd_enable(int reg, int bit_pos)].  For a
    [bit_pos] outside 0..31 the C shift is undefined; the programs below
    then carry the mathematical shift brought back to [int]. *)
Definition tegra186_pmc_io_dpd_enable (reg bit_pos : Z) : pmc Z :=
  spin_lock ;;
  tegra186_pmc_writel 0x10 PMC_IO_SEL_DPD_TIM ;;
  let enable_mask := to_u32 (to_int (Z.shiftl 1 bit_pos)) in
  tegra186_pmc_writel enable_mask (to_int (PMC_IO_DPD_REQ + to_int (reg * 8))) ;;
  udelay 7 ;;
  dpd_status <- tegra186_pmc_readl (to_int (PMC_IO_DPD_STATUS + to_int (reg * 8))) ;;
  (if negb (c_true (Z.land dpd_status (to_u32 (to_int (Z.shiftl 1 bit_pos)))))
   then pr_info "Error: dpd%d enable failed, status=%#x\n"
                [to_int (reg + 1); dpd_status]
   else ret tt) ;;
  spin_unlock ;;
  ret 0.

(** [int tegra186_pmc_io_dpd_disable(int reg, int bit_pos)] *)
Definition tegra186_pmc_io_dpd_disable (reg bit_pos : Z) : pmc Z :=
  spin_lock ;;
  let enable_mask := to_u32 (to_int (Z.shiftl 1 bit_pos)) in
  tegra186_pmc_writel enable_mask (to_int (PMC_IO_DPD_REQ + to_int (reg * 8))) ;;
  udelay 7 ;;
  dpd_status <- tegra186_pmc_readl (to_int (PMC_IO_DPD_STATUS + to_int (reg * 8))) ;;
  (if c_true (Z.land dpd_status (to_u32 (to_int (Z.shiftl 1 bit_pos))))
   then pr_info "Error: dpd%d disable failed, status=%#x\n"
                [to_int (reg + 1); dpd_status]
   else ret tt) ;;
  spin_unlock ;;
  ret 0.

(** [int tegra186_pmc_io_dpd_get_status(int reg, int bit_pos)] *)
Definition tegra186_pmc_io_dpd_get_status (reg bit_pos : Z) : pmc Z :=
  dpd_status <- tegra186_pmc_readl (to_int (PMC_IO_DPD_STATUS + to_int (reg * 8))) ;;
  if c_true (Z.land dpd_status (BIT bit_pos)) then ret 1 else ret 0.

(** ** Composite brick and power-rail helpers *)

(** [void tegra_pmc_pad_voltage_update(unsigned int reg, unsigned long mask,
      unsigned long val)] *)
Definition tegra_pmc_pad_voltage_update (reg mask val : Z) : pmc unit :=
  spin_lock_irqsave ;;
  _tegra186_pmc_register_update (to_int reg) mask val ;;
  spin_unlock_irqrestore.

Definition tegra_pmc_pad_voltage_get (reg : Z) : pmc Z :=
  tegra186_pmc_readl reg.

Definition tegra_pmc_nvcsi_ab_brick_update (mask val : Z) : pmc unit :=
  spin_lock_irqsave ;;
  _tegra186_pmc_register_update PMC_IO_DPD_REQ mask val ;;
  spin_unlock_irqrestore.

Definition tegra_pmc_nvcsi_ab_brick_getstatus : pmc Z :=
  tegra186_pmc_readl PMC_IO_DPD_REQ.

Definition tegra_pmc_nvcsi_cdef_brick_update (mask val : Z) : pmc unit :=
  spin_lock_irqsave ;;
  _tegra186_pmc_register_update PMC_IO_DPD2_REQ mask val ;;
  spin_unlock_irqrestore.

Definition tegra_pmc_nvcsi_cdef_brick_getstatus : pmc Z :=
  tegra186_pmc_readl PMC_IO_DPD2_REQ.

(** The masks the two brick routines apply to each request register. *)
Definition NVCSI_AB_MASK : Z :=
  Z.lor PMC_IO_DPD_CSIA_MASK PMC_IO_DPD_CSIB_MASK.
Definition NVCSI_CDEF_MASK : Z :=
  Z.lor (Z.lor (Z.lor PMC_IO_DPD2_CSIC_MASK PMC_IO_DPD2_CSID_MASK)
               PMC_IO_DPD2_CSIE_MASK) PMC_IO_DPD2_CSIF_MASK.

(** [void tegra186_pmc_enable_nvcsi_brick_dpd(void)] *)
Definition tegra186_pmc_enable_nvcsi_brick_dpd : pmc unit :=
  val <- tegra186_pmc_readl PMC_IO_DPD_REQ ;;
  let val := to_u32 (Z.lor val PMC_IO_DPD_CSIA_MASK) in
  let val := to_u32 (Z.lor val PMC_IO_DPD_CSIB_MASK) in
  tegra186_pmc_writel val PMC_IO_DPD_REQ ;;
  val <- tegra186_pmc_readl PMC_IO_DPD2_REQ ;;
  let val := to_u32 (Z.lor val NVCSI_CDEF_MASK) in
  tegra186_pmc_writel val PMC_IO_DPD2_REQ.

(** [void tegra186_pmc_disable_nvcsi_brick_dpd(void)] *)
Definition tegra186_pmc_disable_nvcsi_brick_dpd : pmc unit :=
  val <- tegra186_pmc_readl PMC_IO_DPD_REQ ;;
  let val := to_u32 (Z.land val (ulong_not NVCSI_AB_MASK)) in
  tegra186_pmc_writel val PMC_IO_DPD_REQ ;;
  val <- tegra186_pmc_readl PMC_IO_DPD2_REQ ;;
  let val := to_u32 (Z.land val (ulong_not NVCSI_CDEF_MASK)) in
  tegra186_pmc_writel val PMC_IO_DPD2_REQ.

(** [void tegra_pmc_iopower_enable(int reg, u32 bit_mask)] *)
Definition tegra_pmc_iopower_enable (reg bit_mask : Z) : pmc unit :=
  tegra186_pmc_register_update reg bit_mask 0.

(** [void tegra_pmc_iopower_disable(int reg, u32 bit_mask)] *)
Definition tegra_pmc_iopower_disable (reg bit_mask : Z) : pmc unit :=
  tegra186_pmc_register_update reg bit_mask bit_mask.

(** [int tegra_pmc_iopower_get_status(int reg, u32 bit_mask)] *)
Definition tegra_pmc_iopower_get_status (reg bit_mask : Z) : pmc Z :=
  no_iopower <- tegra186_pmc_readl reg ;;
  if c_true (Z.land no_iopower bit_mask) then ret 0 else ret 1.

Definition tegra_pmc_ufs_pwrcntrl_update (mask val : Z) : pmc unit :=
  spin_lock_irqsave ;;
  _tegra186_pmc_register_update PMC_UFSHC_PWR_CNTRL_0 mask val ;;
  spin_unlock_irqrestore.

Definition tegra_pmc_ufs_pwrcntrl_get : pmc Z :=
  tegra186_pmc_readl PMC_UFSHC_PWR_CNTRL_0.

Definition tegra_pmc_sata_pwrgt_update (mask val : Z) : pmc unit :=
  spin_lock_irqsave ;;
  _tegra186_pmc_register_update PMC_SATA_PWRGT_0 mask val ;;
  spin_unlock_irqrestore.

Definition tegra_pmc_sata_pwrgt_get : pmc Z :=
  tegra186_pmc_readl PMC_SATA_PWRGT_0.

(** ** Fuse latch controller *)

(** [void tegra_pmc_fuse_control_ps18_latch_set(void)]; [~(1 << 9)] is an
    [int] converted to [u32] by the compound assignment. *)
Definition tegra_pmc_fuse_control_ps18_latch_set : pmc unit :=
  val <- tegra186_pmc_readl PMC_FUSE_CTRL ;;
  let val := Z.land val (to_u32 (Z.lnot PMC_FUSE_CTRL_PS18_LATCH_CLEAR)) in
  tegra186_pmc_writel val PMC_FUSE_CTRL ;;
  mdelay 1 ;;
  let val := to_u32 (Z.lor val PMC_FUSE_CTRL_PS18_LATCH_SET) in
  tegra186_pmc_writel val PMC_FUSE_CTRL ;;
  mdelay 1.

(** [void tegra_pmc_fuse_control_ps18_latch_clear(void)] *)
Definition tegra_pmc_fuse_control_ps18_latch_clear : pmc unit :=
  val <- tegra186_pmc_readl PMC_FUSE_CTRL ;;
  let val := Z.land val (to_u32 (Z.lnot PMC_FUSE_CTRL_PS18_LATCH_SET)) in
  tegra186_pmc_writel val PMC_FUSE_CTRL ;;
  mdelay 1 ;;
  let val := to_u32 (Z.lor val PMC_FUSE_CTRL_PS18_LATCH_CLEAR) in
  tegra186_pmc_writel val PMC_FUSE_CTRL ;;
  mdelay 1.

(** [void tegra_pmc_fuse_disable_mirroring(void)] *)
Definition tegra_pmc_fuse_disable_mirroring : pmc unit :=
  val <- tegra186_pmc_readl PMC_FUSE_CTRL ;;
  if c_true (Z.land val PMC_FUSE_CTRL_ENABLE_REDIRECTION)
  then tegra186_pmc_writel PMC_FUSE_CTRL_DISABLE_REDIRECTION PMC_FUSE_CTRL
  else ret tt.

(** [void tegra_pmc_fuse_enable_mirroring(void)] *)
Definition tegra_pmc_fuse_enable_mirroring : pmc unit :=
  val <- tegra186_pmc_readl PMC_FUSE_CTRL ;;
  if negb (c_true (Z.land val PMC_FUSE_CTRL_ENABLE_REDIRECTION))
  then tegra186_pmc_writel PMC_FUSE_CTRL_ENABLE_REDIRECTION PMC_FUSE_CTRL
  else ret tt.

(** [bool tegra_pmc_is_halt_in_fiq(void)] *)
Definition tegra_pmc_is_halt_in_fiq : pmc bool :=
  val <- tegra186_pmc_readl PMC_IMPL_RAMDUMP_CTL_STATUS ;;
  ret (c_true (Z.land PMC_IMPL_HALT_IN_FIQ_MASK val)).

(** ** The machine *)

(** The register block: byte offset to register content.  [load] is what a
    32-bit read at an offset returns; a register the map does not mention
    holds 0. *)
Definition load (regs : gmap Z Z) (reg : Z) : Z :=
  to_u32 (default 0 (regs !! reg)).

(** Content of the register a [u32] offset argument [reg] designates. *)
Definition reg32 (regs : gmap Z Z) (reg : Z) : Z := load regs (to_u32 reg).

(** What is recorded of a run, in program order. *)
Inductive event : Type :=
| SpinLock
| SpinUnlock
| SpinLockIrqsave
| SpinUnlockIrqrestore
| Readl (reg val : Z)            (* readl at reg returned val *)
| Writel (val reg : Z)
| Udelay (usecs : Z)
| Mdelay (msecs : Z)
| PrInfo (fmt : string) (args : list Z).

(** One action on the register block: the answer, the block afterwards and
    the event recorded. *)
Definition perform (a : action) (regs : gmap Z Z) : Z * gmap Z Z * event :=
  match a with
  | DoSpinLock => (0, regs, SpinLock)
  | DoSpinUnlock => (0, regs, SpinUnlock)
  | DoSpinLockIrqsave => (0, regs, SpinLockIrqsave)
  | DoSpinUnlockIrqrestore => (0, regs, SpinUnlockIrqrestore)
  | DoReadl reg => (load regs reg, regs, Readl reg (load regs reg))
  | DoWritel val reg => (0, <[reg := val]> regs, Writel val reg)
  | DoUdelay usecs => (0, regs, Udelay usecs)
  | DoMdelay msecs => (0, regs, Mdelay msecs)
  | DoPrInfo fmt args => (0, regs, PrInfo fmt args)
  end.

(** A routine run alone, start to end: result, register block, record. *)
Fixpoint run {A} (c : pmc A) (regs : gmap Z Z) : A * gmap Z Z * list event :=
  match c with
  | Ret a => (a, regs, [])
  | Do a k =>
      let '(v, regs1, e) := perform a regs in
      let '(r, regs2, t) := run (k v) regs1 in
      (r, regs2, e :: t)
  end.

Definition result {A} (r : A * gmap Z Z * list event) : A := fst (fst r).
Definition final {A} (r : A * gmap Z Z * list event) : gmap Z Z := snd (fst r).
Definition actions {A} (r : A * gmap Z Z * list event) : list event := snd r.

(** Two routines called from independent contexts.  A context takes one
    step of its routine at a time; taking [tegra186_pmc_access_lock] is a
    step only while the lock is free (a context spinning on the lock makes
    no progress), and a routine that has returned has no step. *)
Definition step {A} (regs : gmap Z Z) (held : bool) (c : pmc A)
  : option (gmap Z Z * bool * pmc A) :=
  match c with
  | Ret _ => None
  | Do a k =>
      match a with
      | DoSpinLock | DoSpinLockIrqsave =>
          if held then None else Some (regs, true, k 0)
      | DoSpinUnlock | DoSpinUnlockIrqrestore => Some (regs, false, k 0)
      | _ => let '(v, regs1, _) := perform a regs in Some (regs1, held, k v)
      end
  end.

(** [interleave s] runs a schedule: [false] lets the first context step,
    [true] the second. *)
Fixpoint interleave {A B} (s : list bool) (regs : gmap Z Z) (held : bool)
    (c1 : pmc A) (c2 : pmc B) : option (gmap Z Z * bool * pmc A * pmc B) :=
  match s with
  | [] => Some (regs, held, c1, c2)
  | false :: s' =>
      match step regs held c1 with
      | Some (regs1, held1, c1') => interleave s' regs1 held1 c1' c2
      | None => None
      end
  | true :: s' =>
      match step regs held c2 with
      | Some (regs1, held1, c2') => interleave s' regs1 held1 c1 c2'
      | None => None
      end
  end.

(** The schedule ran both routines to their return, leaving [regs']. *)
Definition completes {A B} (s : list bool) (regs : gmap Z Z)
    (c1 : pmc A) (c2 : pmc B) (regs' : gmap Z Z) : Prop :=
  exists held a b, interleave s regs false c1 c2 = Some (regs', held, Ret a, Ret b).

(** Content of register [reg] once schedule [s] has run both routines to
    their return; [None] if [s] does not complete them. *)
Definition outcome {A B} (s : list bool) (regs : gmap Z Z)
    (c1 : pmc A) (c2 : pmc B) (reg : Z) : option Z :=
  match interleave s regs false c1 c2 with
  | Some (regs', _, Ret _, Ret _) => Some (reg32 regs' reg)
  | _ => None
  end.

(** ** Reading the record of actions *)

(** Every [Writel] of the record happens between taking and releasing
    [tegra186_pmc_access_lock]; [held] says whether the lock is held where
    the record starts. *)
Fixpoint guarded_from (held : bool) (t : list event) : bool :=
  match t with
  | [] => true
  | SpinLock :: t' | SpinLockIrqsave :: t' => guarded_from true t'
  | SpinUnlock :: t' | SpinUnlockIrqrestore :: t' => guarded_from false t'
  | Writel _ _ :: t' => held && guarded_from held t'
  | _ :: t' => guarded_from held t'
  end.

Definition writes_guarded (t : list event) : bool := guarded_from false t.

(** No lock operation occurs in the record. *)
Definition lock_free (t : list event) : bool :=
  forallb (fun e => match e with
                    | SpinLock | SpinUnlock
                    | SpinLockIrqsave | SpinUnlockIrqrestore => false
                    | _ => true
                    end) t.

Definition is_write_to (reg : Z) (e : event) : bool :=
  match e with
  | Writel _ r => r =? reg
  | _ => false
  end.

(** Number of [writel]s to register [reg] in the record. *)
Definition count_writes (reg : Z) (t : list event) : nat :=
  length (List.filter (is_write_to reg) t).

Definition is_log (e : event) : bool :=
  match e with
  | PrInfo _ _ => true
  | _ => false
  end.

(** The routine logged a failure line. *)
Definition logs_failure (t : list event) : bool := existsb is_log t.

(** The word [_tegra186_pmc_register_update] writes back when the register
    held [r]. *)
Definition updated (r mask val : Z) : Z :=
  to_u32 (Z.lor (Z.land r (ulong_not mask)) (Z.land val mask)).


(** ** Device-tree setup *)


Section ParseDt.

(** The errno value [EINVAL], from a header outside this driver. *)
Variable EINVAL : Z.


End ParseDt.

(** ** Critical sections *)

Definition is_lock (a : action) : bool :=
  match a with
  | DoSpinLock | DoSpinLockIrqsave => true
  | _ => false
  end.

Definition is_unlock (a : action) : bool :=
  match a with
  | DoSpinUnlock | DoSpinUnlockIrqrestore => true
  | _ => false
  end.

(** The rest of a routine that holds the lock: steps that neither take nor
    release it, then the release, then the return, on every path. *)
Inductive section_body {A : Type} : pmc A -> Prop :=
| body_unlock (a : action) (k : Z -> pmc A) (r : A) :
    is_unlock a = true ->
    (forall v, k v = Ret r) ->
    section_body (Do a k)
| body_step (a : action) (k : Z -> pmc A) :
    is_lock a = false -> is_unlock a = false ->
    (forall v, section_body (k v)) ->
    section_body (Do a k).

(** A routine whose first step takes [tegra186_pmc_access_lock] and whose
    last step before returning releases it, with no lock operation in
    between. *)
Inductive critical {A : Type} : pmc A -> Prop :=
| critical_intro (a : action) (k : Z -> pmc A) :
    is_lock a = true ->
    (forall v, section_body (k v)) ->
    critical (Do a k).

(** The word two updates of one register amount to: the later value under
    the later mask, the earlier value under the rest of the earlier mask. *)
Definition merged_val (v1 m2 v2 : Z) : Z :=
  Z.lor (Z.land v1 (ulong_not m2)) (Z.land v2 m2).

(** A routine that only reads register [reg]: it leaves the block as it
    found it and its whole record is that one read. *)
Definition reads_only {A : Type} (c : pmc A) (reg : Z) (regs : gmap Z Z) : Prop :=
  final (run c regs) = regs /\
  actions (run c regs) = [Readl (to_u32 reg) (reg32 regs reg)].

(** No word written to FUSE_CTRL in the record has both PS18 latch bits
    (bits 8 and 9) set. *)
Definition never_both_latches (t : list event) : bool :=
  forallb (fun e => match e with
                    | Writel v r =>
                        negb ((r =? PMC_FUSE_CTRL) && Z.testbit v 8 && Z.testbit v 9)
                    | _ => true
                    end) t.

(** * Properties *)

(** ** Bit-level facts about the integer conversions *)

Lemma to_u32_range x : 0 <= to_u32 x < 2 ^ 32.
Proof. unfold to_u32. apply Z.mod_pos_bound. lia. Qed.

Lemma to_u32_small x : 0 <= x < 2 ^ 32 -> to_u32 x = x.
Proof. intros H. unfold to_u32. now apply Z.mod_small. Qed.

Lemma to_u32_idem x : to_u32 (to_u32 x) = to_u32 x.
Proof. apply to_u32_small, to_u32_range. Qed.

Lemma testbit_to_u32 x i :
  Z.testbit (to_u32 x) i = (i <? 32) && Z.testbit x i.
Proof. unfold to_u32. apply Z.testbit_mod_pow2. lia. Qed.

Lemma testbit_to_ulong x i :
  Z.testbit (to_ulong x) i = (i <? 64) && Z.testbit x i.
Proof. unfold to_ulong, BITS_PER_LONG. apply Z.testbit_mod_pow2. lia. Qed.

Lemma testbit_ulong_not x i :
  0 <= i -> Z.testbit (ulong_not x) i = (i <? 64) && negb (Z.testbit x i).
Proof.
  intros Hi. unfold ulong_not.
  rewrite testbit_to_ulong, Z.lnot_spec by assumption. reflexivity.
Qed.

Lemma to_u32_to_int x : to_u32 (to_int x) = to_u32 x.
Proof.
  unfold to_u32, to_int.
  rewrite Zminus_mod_idemp_l.
  f_equal. lia.
Qed.

(** Two integers are equal when they agree on every bit; the tactic opens
    the bits of the conversions and leaves boolean algebra over one index. *)
Ltac bits i Hi :=
  apply Z.bits_inj'; intros i Hi;
  repeat first
    [ rewrite testbit_to_u32
    | rewrite testbit_to_ulong
    | rewrite testbit_ulong_not by assumption
    | rewrite Z.land_spec
    | rewrite Z.lor_spec
    | rewrite Z.lnot_spec by assumption ].

Ltac bool_cases :=
  repeat match goal with
         | |- context [Z.testbit ?x ?i] =>
             let b := fresh "b" in
             generalize (Z.testbit x i); intro b
         | |- context [?i <? ?n] =>
             let c := fresh "c" in
             destruct (Z.ltb_spec i n)
         end;
  repeat match goal with b : bool |- _ => destruct b end;
  simpl; try reflexivity; try lia.

(** Unfold a routine and run it: the programs are finite trees, so the
    run computes up to the first undecided branch. *)
Ltac run_pmc :=
  cbv beta iota zeta delta
    [run perform result final actions bind ret fst snd app
     spin_lock spin_unlock spin_lock_irqsave spin_unlock_irqrestore
     udelay mdelay pr_info
     tegra186_pmc_readl tegra186_pmc_writel
     _tegra186_pmc_register_update tegra186_pmc_register_update
     tegra_pmc_register_get
     tegra186_pmc_io_dpd_enable tegra186_pmc_io_dpd_disable
     tegra_pmc_nvcsi_ab_brick_update tegra_pmc_nvcsi_cdef_brick_update
     tegra186_pmc_enable_nvcsi_brick_dpd tegra186_pmc_disable_nvcsi_brick_dpd
     tegra_pmc_iopower_enable tegra_pmc_iopower_disable
     tegra_pmc_fuse_control_ps18_latch_set
     tegra_pmc_fuse_control_ps18_latch_clear
     tegra_pmc_fuse_enable_mirroring tegra_pmc_fuse_disable_mirroring];
  repeat match goal with
         | |- context [load ?r (to_u32 ?x)] =>
             change (load r (to_u32 x)) with (reg32 r x)
         end.

(** ** The register block as a store *)

Lemma reg32_range regs reg : 0 <= reg32 regs reg < 2 ^ 32.
Proof. apply to_u32_range. Qed.

Lemma reg32_insert_eq (regs : gmap Z Z) reg v :
  reg32 (<[to_u32 reg := v]> regs) reg = to_u32 v.
Proof. unfold reg32, load. now rewrite lookup_insert_eq. Qed.

Lemma reg32_insert_ne (regs : gmap Z Z) reg reg' v :
  to_u32 reg <> to_u32 reg' ->
  reg32 (<[to_u32 reg := v]> regs) reg' = reg32 regs reg'.
Proof. intros H. unfold reg32, load. now rewrite lookup_insert_ne. Qed.

Lemma lookup_reg32 (regs : gmap Z Z) reg :
  to_u32 reg = reg -> load regs reg = reg32 regs reg.
Proof. intros H. unfold reg32. now rewrite H. Qed.

Lemma testbit_reg32_high regs reg i :
  32 <= i -> Z.testbit (reg32 regs reg) i = false.
Proof.
  intros H. unfold reg32, load. rewrite testbit_to_u32.
  destruct (Z.ltb_spec i 32); [lia | reflexivity].
Qed.

(** ** Register access core *)

Lemma register_update_run regs offset mask val :
  run (tegra186_pmc_register_update offset mask val) regs =
  (tt,
   <[to_u32 offset := updated (reg32 regs offset) mask val]> regs,
   [SpinLockIrqsave;
    Readl (to_u32 offset) (reg32 regs offset);
    Writel (updated (reg32 regs offset) mask val) (to_u32 offset);
    SpinUnlockIrqrestore]).
Proof.
  run_pmc. unfold updated.
  now rewrite !to_u32_idem.
Qed.

Lemma testbit_updated r mask val i :
  0 <= i ->
  Z.testbit (updated r mask val) i =
  (i <? 32) && (if Z.testbit mask i then Z.testbit val i
                else (i <? 64) && Z.testbit r i).
Proof.
  intros Hi. unfold updated.
  rewrite testbit_to_u32, Z.lor_spec, !Z.land_spec, testbit_ulong_not by assumption.
  bool_cases.
Qed.

Lemma register_update_final regs offset mask val :
  final (run (tegra186_pmc_register_update offset mask val) regs) =
  <[to_u32 offset := updated (reg32 regs offset) mask val]> regs.
Proof. now rewrite register_update_run. Qed.

Lemma register_get_result regs offset :
  result (run (tegra_pmc_register_get offset) regs) = reg32 regs offset.
Proof. reflexivity. Qed.

Lemma updated_range r mask val : 0 <= updated r mask val < 2 ^ 32.
Proof. apply to_u32_range. Qed.

Lemma updated_in_mask r mask val :
  Z.land (updated r mask val) mask = to_u32 (Z.land val mask).
Proof.
  apply Z.bits_inj'; intros i Hi.
  rewrite Z.land_spec, testbit_updated, testbit_to_u32, Z.land_spec by assumption.
  bool_cases.
Qed.

Lemma updated_out_of_mask r mask val :
  0 <= r < 2 ^ 32 ->
  Z.land (updated r mask val) (ulong_not mask) = Z.land r (ulong_not mask).
Proof.
  intros Hr. apply Z.bits_inj'; intros i Hi.
  rewrite !Z.land_spec, testbit_updated, testbit_ulong_not by assumption.
  rewrite <- (to_u32_small r Hr), testbit_to_u32.
  bool_cases.
Qed.

Lemma register_update_in_mask regs offset mask val :
  Z.land (reg32 (final (run (tegra186_pmc_register_update offset mask val) regs))
                offset) mask
  = to_u32 (Z.land val mask).
Proof.
  rewrite register_update_final, reg32_insert_eq.
  rewrite to_u32_small by apply updated_range.
  apply updated_in_mask.
Qed.

Lemma register_update_out_of_mask regs offset mask val :
  Z.land (reg32 (final (run (tegra186_pmc_register_update offset mask val) regs))
                offset) (ulong_not mask)
  = Z.land (reg32 regs offset) (ulong_not mask).
Proof.
  rewrite register_update_final, reg32_insert_eq.
  rewrite to_u32_small by apply updated_range.
  apply updated_out_of_mask, reg32_range.
Qed.

(** C1 (amended).  After [tegra186_pmc_register_update(offset, mask, val)]
    the register read back through [tegra_pmc_register_get] agrees with
    [val] inside the mask, up to the 32 bits a register holds:
    [get(offset) & mask] is [val & mask] truncated to [u32]; and
    [get(offset) & ~mask] is what it was before the call.  This holds for
    every offset, mask, value and register block. *)
Theorem register_update_masked regs offset mask val :
  let regs' := final (run (tegra186_pmc_register_update offset mask val) regs) in
  let get regs := result (run (tegra_pmc_register_get offset) regs) in
  Z.land (get regs') mask = to_u32 (Z.land val mask) /\
  Z.land (get regs') (ulong_not mask) = Z.land (get regs) (ulong_not mask).
Proof.
  cbv beta zeta. rewrite !register_get_result.
  split.
  - apply register_update_in_mask.
  - apply register_update_out_of_mask.
Qed.

(** C1 without the truncation fails for a mask with a bit above bit 31:
    [mask] and [val] are [unsigned long], the register has no such bit, so
    [get(offset) & mask] is 0 where [val & mask] is not. *)
Lemma register_update_mask_bit32 :
  let mask := 2 ^ 32 in
  let val := 2 ^ 32 in
  let regs' := final (run (tegra186_pmc_register_update 0 mask val) ∅) in
  let get := result (run (tegra_pmc_register_get 0) regs') in
  is_ulong mask /\ is_ulong val /\
  Z.land get mask = 0 /\ Z.land val mask = 2 ^ 32.
Proof.
  cbv zeta. rewrite register_get_result, register_update_final, reg32_insert_eq.
  unfold is_ulong, BITS_PER_LONG. repeat split; try lia; reflexivity.
Qed.

Lemma to_u32_land_u32 val mask :
  is_u32 mask -> to_u32 (Z.land val mask) = Z.land val mask.
Proof.
  intros Hm. replace mask with (to_u32 mask) by (apply to_u32_small; exact Hm).
  bits i Hi. bool_cases.
Qed.

(** For a mask that fits in a register the truncation is invisible. *)
Lemma register_update_in_mask_u32 regs offset mask val :
  is_u32 mask ->
  let regs' := final (run (tegra186_pmc_register_update offset mask val) regs) in
  Z.land (reg32 regs' offset) mask = Z.land val mask.
Proof.
  intros Hm. cbv zeta.
  rewrite register_update_in_mask. now apply to_u32_land_u32.
Qed.

(** ** Two updates of one register *)

Lemma disjoint_bits m1 m2 i :
  Z.land m1 m2 = 0 -> Z.testbit m1 i && Z.testbit m2 i = false.
Proof. intros H. now rewrite <- Z.land_spec, H, Z.bits_0. Qed.

Lemma updated_twice_bit r m1 v1 m2 v2 i :
  Z.land m1 m2 = 0 -> 0 <= i < 32 ->
  Z.testbit (updated (updated r m1 v1) m2 v2) i =
  if Z.testbit m1 i then Z.testbit v1 i
  else if Z.testbit m2 i then Z.testbit v2 i
       else Z.testbit r i.
Proof.
  intros Hd Hi. pose proof (disjoint_bits m1 m2 i Hd) as Hb.
  rewrite !testbit_updated by lia.
  destruct (Z.ltb_spec i 32); [|lia].
  destruct (Z.ltb_spec i 64); [|lia].
  destruct (Z.testbit m1 i), (Z.testbit m2 i); simpl in *;
    try discriminate; reflexivity.
Qed.

Lemma updated_commute r m1 v1 m2 v2 :
  Z.land m1 m2 = 0 ->
  updated (updated r m1 v1) m2 v2 = updated (updated r m2 v2) m1 v1.
Proof.
  intros Hd. apply Z.bits_inj'; intros i Hi.
  destruct (Z.ltb_spec i 32) as [Hlt|Hge].
  - rewrite !updated_twice_bit by (try lia; now rewrite ?(Z.land_comm m2 m1)).
    pose proof (disjoint_bits m1 m2 i Hd).
    destruct (Z.testbit m1 i), (Z.testbit m2 i); simpl in *;
      try discriminate; reflexivity.
  - rewrite !testbit_updated by lia.
    destruct (Z.ltb_spec i 32); [lia | reflexivity].
Qed.

Lemma register_update_twice regs offset m1 v1 m2 v2 :
  final (run (tegra186_pmc_register_update offset m2 v2)
          (final (run (tegra186_pmc_register_update offset m1 v1) regs))) =
  <[to_u32 offset := updated (updated (reg32 regs offset) m1 v1) m2 v2]> regs.
Proof.
  rewrite !register_update_final, reg32_insert_eq, insert_insert_eq.
  now rewrite (to_u32_small (updated _ _ _)) by apply updated_range.
Qed.

(** *** Calls from two contexts *)

Lemma load_insert_eq (regs : gmap Z Z) reg v :
  load (<[reg := v]> regs) reg = to_u32 v.
Proof. unfold load. now rewrite lookup_insert_eq. Qed.

Ltac schedule_step H s :=
  destruct s as [|[|] s];
  cbn [interleave step perform] in H;
  try discriminate H.

(** The lock makes each [tegra186_pmc_register_update] one indivisible
    step: a schedule that completes two calls on one register has run one
    of them wholly before the other. *)
Lemma register_update_serialised s regs offset m1 v1 m2 v2 regs' :
  completes s regs (tegra186_pmc_register_update offset m1 v1)
                   (tegra186_pmc_register_update offset m2 v2) regs' ->
  regs' = final (run (tegra186_pmc_register_update offset m2 v2)
                   (final (run (tegra186_pmc_register_update offset m1 v1) regs)))
  \/
  regs' = final (run (tegra186_pmc_register_update offset m1 v1)
                   (final (run (tegra186_pmc_register_update offset m2 v2) regs))).
Proof.
  intros (held & a & b & H).
  rewrite !register_update_final, !reg32_insert_eq.
  rewrite !(to_u32_small (updated _ _ _)) by apply updated_range.
  unfold tegra186_pmc_register_update, _tegra186_pmc_register_update,
    spin_lock_irqsave, spin_unlock_irqrestore,
    tegra186_pmc_readl, tegra186_pmc_writel in H.
  cbn [bind] in H.
  do 9 (try schedule_step H s).
  - (* the second call took the lock first *)
    injection H as <- _ _ _. right.
    change (load regs (to_u32 offset)) with (reg32 regs offset).
    rewrite load_insert_eq, !to_u32_idem. reflexivity.
  - (* the first call took the lock first *)
    injection H as <- _ _ _. left.
    change (load regs (to_u32 offset)) with (reg32 regs offset).
    rewrite load_insert_eq, !to_u32_idem. reflexivity.
Qed.

(** Either call may go first: both serial schedules complete. *)
Lemma register_update_serial_schedules regs offset m1 v1 m2 v2 :
  let c1 := tegra186_pmc_register_update offset m1 v1 in
  let c2 := tegra186_pmc_register_update offset m2 v2 in
  completes [false; false; false; false; true; true; true; true] regs c1 c2
    (final (run c2 (final (run c1 regs)))) /\
  completes [true; true; true; true; false; false; false; false] regs c1 c2
    (final (run c1 (final (run c2 regs)))).
Proof.
  cbv zeta. rewrite !register_update_final, !reg32_insert_eq.
  rewrite !(to_u32_small (updated _ _ _)) by apply updated_range.
  split; exists false, tt, tt;
    unfold tegra186_pmc_register_update, _tegra186_pmc_register_update,
      spin_lock_irqsave, spin_unlock_irqrestore,
      tegra186_pmc_readl, tegra186_pmc_writel;
    cbn [bind interleave step perform];
    change (load regs (to_u32 offset)) with (reg32 regs offset);
    rewrite load_insert_eq, !to_u32_idem; reflexivity.
Qed.

(** C6.  Two [tegra186_pmc_register_update] calls on one register with
    disjoint masks, each run to completion, leave the same register block
    whichever runs first; both serial orders are schedules of the two
    calls, and every schedule of the two calls from independent contexts
    that completes both leaves that block too.  In it every register bit
    under the first mask has the first value's bit, every bit under the
    second mask has the second value's bit, and every other bit is as it
    was: neither update is lost. *)
Theorem disjoint_updates_both_land regs offset m1 v1 m2 v2 :
  Z.land m1 m2 = 0 ->
  let c1 := tegra186_pmc_register_update offset m1 v1 in
  let c2 := tegra186_pmc_register_update offset m2 v2 in
  let r12 := final (run c2 (final (run c1 regs))) in
  let r21 := final (run c1 (final (run c2 regs))) in
  r12 = r21 /\
  completes [false; false; false; false; true; true; true; true] regs c1 c2 r12 /\
  completes [true; true; true; true; false; false; false; false] regs c1 c2 r21 /\
  (forall s regs', completes s regs c1 c2 regs' -> regs' = r12) /\
  forall i, 0 <= i < 32 ->
    Z.testbit (reg32 r12 offset) i =
    if Z.testbit m1 i then Z.testbit v1 i
    else if Z.testbit m2 i then Z.testbit v2 i
         else Z.testbit (reg32 regs offset) i.
Proof.
  intros Hd. cbv zeta.
  assert (Heq : final (run (tegra186_pmc_register_update offset m2 v2)
                  (final (run (tegra186_pmc_register_update offset m1 v1) regs)))
              = final (run (tegra186_pmc_register_update offset m1 v1)
                  (final (run (tegra186_pmc_register_update offset m2 v2) regs)))).
  { rewrite !register_update_twice.
    now rewrite (updated_commute _ m1 v1 m2 v2). }
  split; [exact Heq|].
  split; [apply register_update_serial_schedules|].
  split; [apply register_update_serial_schedules|].
  split.
  - intros s regs' Hs.
    destruct (register_update_serialised _ _ _ _ _ _ _ _ Hs) as [->| ->];
      [reflexivity | now rewrite Heq].
  - intros i Hi. rewrite register_update_twice.
    rewrite reg32_insert_eq, to_u32_small by apply updated_range.
    now apply updated_twice_bit.
Qed.

Lemma disjoint_updates_both_land_witness :
  Z.land 0x0F 0x30 = 0 /\
  final (run (tegra186_pmc_register_update 0x34 0x30 0x20)
          (final (run (tegra186_pmc_register_update 0x34 0x0F 0x05)
                    {[ 0x34 := 0xC0 ]}))) =
  final (run (tegra186_pmc_register_update 0x34 0x0F 0x05)
          (final (run (tegra186_pmc_register_update 0x34 0x30 0x20)
                    {[ 0x34 := 0xC0 ]}))).
Proof.
  split; [reflexivity|].
  exact (proj1 (disjoint_updates_both_land {[ 0x34 := 0xC0 ]} 0x34 0x0F 0x05 0x30 0x20
                  eq_refl)).
Defined.

Example disjoint_updates_value :
  reg32 (final (run (tegra186_pmc_register_update 0x34 0x30 0x20)
                 (final (run (tegra186_pmc_register_update 0x34 0x0F 0x05)
                           {[ 0x34 := 0xC0 ]})))) 0x34 = 0xE5.
Proof. rewrite register_update_twice, reg32_insert_eq. reflexivity. Qed.

(** ** DPD group controller *)

Lemma to_int_small x : - 2 ^ 31 <= x < 2 ^ 31 -> to_int x = x.
Proof. intros H. unfold to_int. rewrite Z.mod_small; lia. Qed.

Lemma land_pow2 x b :
  0 <= b -> Z.land x (2 ^ b) = if Z.testbit x b then 2 ^ b else 0.
Proof.
  intros Hb. apply Z.bits_inj'; intros i Hi.
  rewrite Z.land_spec, Z.pow2_bits_eqb by assumption.
  destruct (Z.eqb_spec b i) as [->|Hne].
  - destruct (Z.testbit x i); simpl.
    + now rewrite Z.pow2_bits_true.
    + now rewrite Z.bits_0.
  - rewrite andb_false_r.
    destruct (Z.testbit x b).
    + now rewrite Z.pow2_bits_false.
    + now rewrite Z.bits_0.
Qed.

Lemma c_true_land_pow2 x b :
  0 <= b -> c_true (Z.land x (2 ^ b)) = Z.testbit x b.
Proof.
  intros Hb. unfold c_true. rewrite land_pow2 by assumption.
  destruct (Z.testbit x b); [|reflexivity].
  destruct (Z.eqb_spec (2 ^ b) 0); [|reflexivity].
  pose proof (Z.pow_pos_nonneg 2 b). lia.
Qed.

(** The bit mask of an in-range bit position, as the [int] shift and its
    conversion to [unsigned int] yield it. *)
Lemma enable_mask_in_range b :
  0 <= b < 32 -> to_u32 (to_int (Z.shiftl 1 b)) = Z.shiftl 1 b.
Proof.
  intros Hb. rewrite to_u32_to_int. apply to_u32_small.
  rewrite Z.shiftl_1_l. split.
  - apply Z.pow_nonneg. lia.
  - apply Z.pow_lt_mono_r; lia.
Qed.

Lemma group_offset_in_range base g :
  0 <= base < 0x100 -> 0 <= g < 8 ->
  to_u32 (to_int (base + to_int (g * 8))) = base + g * 8.
Proof.
  intros Hbase Hg.
  rewrite (to_int_small (g * 8)) by lia.
  rewrite to_int_small by lia.
  apply to_u32_small. lia.
Qed.

(** What the status read of a DPD sequence returns: the status register of
    an in-range group is neither the timer nor the group's request
    register, so the two writes before the read leave it alone. *)
Lemma dpd_status_after_writes (regs : gmap Z Z) g t v :
  0 <= g < 8 ->
  reg32 (<[PMC_IO_DPD_REQ + g * 8 := v]> (<[PMC_IO_SEL_DPD_TIM := t]> regs))
        (PMC_IO_DPD_STATUS + g * 8)
  = reg32 regs (PMC_IO_DPD_STATUS + g * 8).
Proof.
  intros Hg.
  unfold reg32, load, PMC_IO_DPD_REQ, PMC_IO_SEL_DPD_TIM, PMC_IO_DPD_STATUS.
  rewrite (to_u32_small (0x78 + g * 8)) by lia.
  rewrite lookup_insert_ne by lia.
  now rewrite lookup_insert_ne by lia.
Qed.

Lemma dpd_status_after_write (regs : gmap Z Z) g v :
  0 <= g < 8 ->
  reg32 (<[PMC_IO_DPD_REQ + g * 8 := v]> regs) (PMC_IO_DPD_STATUS + g * 8)
  = reg32 regs (PMC_IO_DPD_STATUS + g * 8).
Proof.
  intros Hg. unfold reg32, load, PMC_IO_DPD_REQ, PMC_IO_DPD_STATUS.
  rewrite (to_u32_small (0x78 + g * 8)) by lia.
  now rewrite lookup_insert_ne by lia.
Qed.

(** C3.  [tegra186_pmc_io_dpd_enable] and [tegra186_pmc_io_dpd_disable]
    return 0 for every group index, bit position and register state.  The
    status word read after the wait only decides whether a failure line is
    logged: enable logs when the bit is clear, disable when it is set, and
    the return value is 0 in both cases. *)
Theorem io_dpd_returns_zero regs reg bit_pos :
  let e := run (tegra186_pmc_io_dpd_enable reg bit_pos) regs in
  let d := run (tegra186_pmc_io_dpd_disable reg bit_pos) regs in
  let status r := reg32 (final r) (to_int (PMC_IO_DPD_STATUS + to_int (reg * 8))) in
  let bit := to_u32 (to_int (Z.shiftl 1 bit_pos)) in
  (result e = 0 /\
   logs_failure (actions e) = negb (c_true (Z.land (status e) bit))) /\
  (result d = 0 /\
   logs_failure (actions d) = c_true (Z.land (status d) bit)).
Proof.
  cbv beta zeta. split; run_pmc.
  - match goal with
    | |- context [if negb (c_true ?x) then _ else _] =>
        destruct (c_true x) eqn:Hbit
    end; cbn [negb fst snd app]; rewrite Hbit; split; reflexivity.
  - match goal with
    | |- context [if c_true ?x then _ else _] =>
        destruct (c_true x) eqn:Hbit
    end; cbn [fst snd app]; rewrite Hbit; split; reflexivity.
Qed.

Lemma shiftl_1_testbit x b :
  0 <= b -> c_true (Z.land x (Z.shiftl 1 b)) = Z.testbit x b.
Proof. intros Hb. rewrite Z.shiftl_1_l. now apply c_true_land_pow2. Qed.

(** The two DPD routines, run: result, register block and actions. *)
Lemma io_dpd_enable_run regs reg bit_pos :
  let req := to_u32 (to_int (PMC_IO_DPD_REQ + to_int (reg * 8))) in
  let st := to_u32 (to_int (PMC_IO_DPD_STATUS + to_int (reg * 8))) in
  let bit := to_u32 (to_int (Z.shiftl 1 bit_pos)) in
  let regs' := <[req := bit]> (<[PMC_IO_SEL_DPD_TIM := 0x10]> regs) in
  let status := load regs' st in
  run (tegra186_pmc_io_dpd_enable reg bit_pos) regs =
  (0, regs',
   [SpinLock; Writel 0x10 PMC_IO_SEL_DPD_TIM; Writel bit req; Udelay 7;
    Readl st status]
   ++ (if c_true (Z.land status bit) then []
       else [PrInfo "Error: dpd%d enable failed, status=%#x\n"
                    [to_int (reg + 1); status]])
   ++ [SpinUnlock]).
Proof.
  cbv zeta. run_pmc. rewrite !to_u32_idem.
  destruct (c_true _); reflexivity.
Qed.

Lemma io_dpd_disable_run regs reg bit_pos :
  let req := to_u32 (to_int (PMC_IO_DPD_REQ + to_int (reg * 8))) in
  let st := to_u32 (to_int (PMC_IO_DPD_STATUS + to_int (reg * 8))) in
  let bit := to_u32 (to_int (Z.shiftl 1 bit_pos)) in
  let regs' := <[req := bit]> regs in
  let status := load regs' st in
  run (tegra186_pmc_io_dpd_disable reg bit_pos) regs =
  (0, regs',
   [SpinLock; Writel bit req; Udelay 7; Readl st status]
   ++ (if c_true (Z.land status bit)
       then [PrInfo "Error: dpd%d disable failed, status=%#x\n"
                    [to_int (reg + 1); status]]
       else [])
   ++ [SpinUnlock]).
Proof.
  cbv zeta. run_pmc. rewrite !to_u32_idem.
  destruct (c_true _); reflexivity.
Qed.

(** C5.  For a group [g] in 0..7 and a bit [b] in 0..31 the enable sequence
    is, in program order: take the lock, write 0x10 to the timer register
    0xBC, write [1 << b] to the request register [0x74 + g*8] with no read
    before it, wait 7 microseconds, read the status register
    [0x78 + g*8], log if the bit is clear, release the lock.  The disable
    sequence is the same without the timer write (and logs if the bit is
    set). *)
Theorem io_dpd_sequences regs g b :
  0 <= g < 8 -> 0 <= b < 32 ->
  let status := reg32 regs (0x78 + g * 8) in
  actions (run (tegra186_pmc_io_dpd_enable g b) regs) =
    [SpinLock;
     Writel 0x10 0xBC;
     Writel (Z.shiftl 1 b) (0x74 + g * 8);
     Udelay 7;
     Readl (0x78 + g * 8) status]
    ++ (if Z.testbit status b then []
        else [PrInfo "Error: dpd%d enable failed, status=%#x\n" [g + 1; status]])
    ++ [SpinUnlock]
  /\
  actions (run (tegra186_pmc_io_dpd_disable g b) regs) =
    [SpinLock;
     Writel (Z.shiftl 1 b) (0x74 + g * 8);
     Udelay 7;
     Readl (0x78 + g * 8) status]
    ++ (if Z.testbit status b
        then [PrInfo "Error: dpd%d disable failed, status=%#x\n" [g + 1; status]]
        else [])
    ++ [SpinUnlock].
Proof.
  intros Hg Hb. cbv zeta.
  assert (Hreq : to_u32 (to_int (PMC_IO_DPD_REQ + to_int (g * 8)))
                 = PMC_IO_DPD_REQ + g * 8)
    by (apply group_offset_in_range; unfold PMC_IO_DPD_REQ; lia).
  assert (Hst : to_u32 (to_int (PMC_IO_DPD_STATUS + to_int (g * 8)))
                = PMC_IO_DPD_STATUS + g * 8)
    by (apply group_offset_in_range; unfold PMC_IO_DPD_STATUS; lia).
  assert (Hst' : to_u32 (PMC_IO_DPD_STATUS + g * 8) = PMC_IO_DPD_STATUS + g * 8)
    by (apply to_u32_small; unfold PMC_IO_DPD_STATUS; lia).
  pose proof (enable_mask_in_range b Hb) as Hmask.
  assert (Hg1 : to_int (g + 1) = g + 1) by (apply to_int_small; lia).
  rewrite io_dpd_enable_run, io_dpd_disable_run. cbv zeta.
  rewrite Hreq, Hst, Hmask, Hg1. unfold actions, snd.
  rewrite !(lookup_reg32 _ _ Hst').
  rewrite dpd_status_after_writes, dpd_status_after_write by assumption.
  rewrite !shiftl_1_testbit by lia.
  split; reflexivity.
Qed.

Lemma io_dpd_sequences_witness :
  0 <= 1 < 8 /\ 0 <= 11 < 32 /\
  actions (run (tegra186_pmc_io_dpd_enable 1 11) ∅) =
  [SpinLock; Writel 0x10 0xBC; Writel 0x800 0x7C; Udelay 7; Readl 0x80 0;
   PrInfo "Error: dpd%d enable failed, status=%#x\n" [2; 0];
   SpinUnlock].
Proof.
  assert (Hg : 0 <= 1 < 8) by lia.
  assert (Hb : 0 <= 11 < 32) by lia.
  split; [exact Hg|]. split; [exact Hb|].
  pose proof (proj1 (io_dpd_sequences ∅ 1 11 Hg Hb)) as H.
  vm_compute in H. vm_compute. exact H.
Defined.

(** ** Fuse latch controller *)

Lemma fuse_ctrl_u32 : to_u32 PMC_FUSE_CTRL = PMC_FUSE_CTRL.
Proof. reflexivity. Qed.

Lemma latch_set_run regs :
  let r := reg32 regs PMC_FUSE_CTRL in
  let v1 := to_u32 (Z.land r (to_u32 (Z.lnot PMC_FUSE_CTRL_PS18_LATCH_CLEAR))) in
  let v2 := to_u32 (Z.lor (Z.land r (to_u32 (Z.lnot PMC_FUSE_CTRL_PS18_LATCH_CLEAR)))
                          PMC_FUSE_CTRL_PS18_LATCH_SET) in
  run tegra_pmc_fuse_control_ps18_latch_set regs =
  (tt, <[PMC_FUSE_CTRL := v2]> (<[PMC_FUSE_CTRL := v1]> regs),
   [Readl PMC_FUSE_CTRL r; Writel v1 PMC_FUSE_CTRL; Mdelay 1;
    Writel v2 PMC_FUSE_CTRL; Mdelay 1]).
Proof. cbv zeta. run_pmc. now rewrite !to_u32_idem. Qed.

Lemma latch_clear_run regs :
  let r := reg32 regs PMC_FUSE_CTRL in
  let v1 := to_u32 (Z.land r (to_u32 (Z.lnot PMC_FUSE_CTRL_PS18_LATCH_SET))) in
  let v2 := to_u32 (Z.lor (Z.land r (to_u32 (Z.lnot PMC_FUSE_CTRL_PS18_LATCH_SET)))
                          PMC_FUSE_CTRL_PS18_LATCH_CLEAR) in
  run tegra_pmc_fuse_control_ps18_latch_clear regs =
  (tt, <[PMC_FUSE_CTRL := v2]> (<[PMC_FUSE_CTRL := v1]> regs),
   [Readl PMC_FUSE_CTRL r; Writel v1 PMC_FUSE_CTRL; Mdelay 1;
    Writel v2 PMC_FUSE_CTRL; Mdelay 1]).
Proof. cbv zeta. run_pmc. now rewrite !to_u32_idem. Qed.

Lemma latch_set_fuse_ctrl regs :
  reg32 (final (run tegra_pmc_fuse_control_ps18_latch_set regs)) PMC_FUSE_CTRL =
  to_u32 (Z.lor (Z.land (reg32 regs PMC_FUSE_CTRL)
                        (to_u32 (Z.lnot PMC_FUSE_CTRL_PS18_LATCH_CLEAR)))
                PMC_FUSE_CTRL_PS18_LATCH_SET).
Proof.
  rewrite latch_set_run. cbv zeta. unfold final, fst, snd.
  rewrite <- fuse_ctrl_u32 at 1.
  now rewrite reg32_insert_eq, to_u32_idem.
Qed.

Lemma latch_clear_fuse_ctrl regs :
  reg32 (final (run tegra_pmc_fuse_control_ps18_latch_clear regs)) PMC_FUSE_CTRL =
  to_u32 (Z.lor (Z.land (reg32 regs PMC_FUSE_CTRL)
                        (to_u32 (Z.lnot PMC_FUSE_CTRL_PS18_LATCH_SET)))
                PMC_FUSE_CTRL_PS18_LATCH_CLEAR).
Proof.
  rewrite latch_clear_run. cbv zeta. unfold final, fst, snd.
  rewrite <- fuse_ctrl_u32 at 1.
  now rewrite reg32_insert_eq, to_u32_idem.
Qed.

(** A latch bit of a register word, tested the way the driver masks it. *)
Lemma land_latch_bit x n :
  0 <= n -> Z.land x (Z.shiftl 1 n) = if Z.testbit x n then Z.shiftl 1 n else 0.
Proof. intros Hn. rewrite Z.shiftl_1_l. now apply land_pow2. Qed.

Lemma latch_word_bits r (off on : Z) i :
  0 <= off -> 0 <= on -> 0 <= i ->
  Z.testbit (to_u32 (Z.lor (Z.land r (to_u32 (Z.lnot (Z.shiftl 1 off))))
                           (Z.shiftl 1 on))) i =
  (i <? 32) && ((Z.testbit r i && negb (off =? i)) || (on =? i)).
Proof.
  intros Hoff Hon Hi.
  rewrite testbit_to_u32, Z.lor_spec, Z.land_spec, testbit_to_u32,
    Z.lnot_spec, !Z.shiftl_1_l by assumption.
  rewrite !Z.pow2_bits_eqb by assumption.
  destruct (i <? 32), (Z.testbit r i), (off =? i), (on =? i); reflexivity.
Qed.

Lemma latch_set_bits regs :
  let x := reg32 (final (run tegra_pmc_fuse_control_ps18_latch_set regs))
                 PMC_FUSE_CTRL in
  Z.testbit x 8 = true /\ Z.testbit x 9 = false.
Proof.
  cbv zeta. rewrite latch_set_fuse_ctrl.
  unfold PMC_FUSE_CTRL_PS18_LATCH_CLEAR, PMC_FUSE_CTRL_PS18_LATCH_SET.
  rewrite !latch_word_bits by lia.
  split; cbn; [apply orb_true_r | now rewrite andb_false_r].
Qed.

Lemma latch_clear_bits regs :
  let x := reg32 (final (run tegra_pmc_fuse_control_ps18_latch_clear regs))
                 PMC_FUSE_CTRL in
  Z.testbit x 8 = false /\ Z.testbit x 9 = true.
Proof.
  cbv zeta. rewrite latch_clear_fuse_ctrl.
  unfold PMC_FUSE_CTRL_PS18_LATCH_CLEAR, PMC_FUSE_CTRL_PS18_LATCH_SET.
  rewrite !latch_word_bits by lia.
  split; cbn; [now rewrite andb_false_r | apply orb_true_r].
Qed.

(** C4.  Whatever FUSE_CTRL held, [tegra_pmc_fuse_control_ps18_latch_set]
    completes with PS18_LATCH_CLEAR unset and PS18_LATCH_SET set, and
    [tegra_pmc_fuse_control_ps18_latch_clear] with SET unset and CLEAR set;
    after the two in sequence, in either order, the register carries the
    bit of the routine that ran last and not the other, so never both. *)
Theorem ps18_latch_bits regs :
  let fuse r := reg32 r PMC_FUSE_CTRL in
  let set r := final (run tegra_pmc_fuse_control_ps18_latch_set r) in
  let clear r := final (run tegra_pmc_fuse_control_ps18_latch_clear r) in
  let SET := PMC_FUSE_CTRL_PS18_LATCH_SET in
  let CLEAR := PMC_FUSE_CTRL_PS18_LATCH_CLEAR in
  (Z.land (fuse (set regs)) CLEAR = 0 /\ Z.land (fuse (set regs)) SET = SET) /\
  (Z.land (fuse (clear regs)) SET = 0 /\ Z.land (fuse (clear regs)) CLEAR = CLEAR) /\
  (Z.land (fuse (clear (set regs))) SET = 0 /\
   Z.land (fuse (clear (set regs))) CLEAR = CLEAR) /\
  (Z.land (fuse (set (clear regs))) CLEAR = 0 /\
   Z.land (fuse (set (clear regs))) SET = SET).
Proof.
  cbv beta zeta.
  unfold PMC_FUSE_CTRL_PS18_LATCH_CLEAR, PMC_FUSE_CTRL_PS18_LATCH_SET.
  rewrite !land_latch_bit by lia.
  destruct (latch_set_bits regs) as [Hs8 Hs9].
  destruct (latch_clear_bits regs) as [Hc8 Hc9].
  destruct (latch_clear_bits
              (final (run tegra_pmc_fuse_control_ps18_latch_set regs)))
    as [Hcs8 Hcs9].
  destruct (latch_set_bits
              (final (run tegra_pmc_fuse_control_ps18_latch_clear regs)))
    as [Hsc8 Hsc9].
  rewrite Hs8, Hs9, Hc8, Hc9, Hcs8, Hcs9, Hsc8, Hsc9.
  repeat split; reflexivity.
Qed.

(** ** Mirror redirection *)

Lemma enable_mirroring_run regs :
  let r := reg32 regs PMC_FUSE_CTRL in
  run tegra_pmc_fuse_enable_mirroring regs =
  if c_true (Z.land r PMC_FUSE_CTRL_ENABLE_REDIRECTION)
  then (tt, regs, [Readl PMC_FUSE_CTRL r])
  else (tt, <[PMC_FUSE_CTRL := PMC_FUSE_CTRL_ENABLE_REDIRECTION]> regs,
        [Readl PMC_FUSE_CTRL r;
         Writel PMC_FUSE_CTRL_ENABLE_REDIRECTION PMC_FUSE_CTRL]).
Proof. cbv zeta. run_pmc. destruct (c_true _); reflexivity. Qed.

Lemma disable_mirroring_run regs :
  let r := reg32 regs PMC_FUSE_CTRL in
  run tegra_pmc_fuse_disable_mirroring regs =
  if c_true (Z.land r PMC_FUSE_CTRL_ENABLE_REDIRECTION)
  then (tt, <[PMC_FUSE_CTRL := PMC_FUSE_CTRL_DISABLE_REDIRECTION]> regs,
        [Readl PMC_FUSE_CTRL r;
         Writel PMC_FUSE_CTRL_DISABLE_REDIRECTION PMC_FUSE_CTRL])
  else (tt, regs, [Readl PMC_FUSE_CTRL r]).
Proof. cbv zeta. run_pmc. destruct (c_true _); reflexivity. Qed.

Lemma fuse_ctrl_after_write (regs : gmap Z Z) v :
  reg32 (<[PMC_FUSE_CTRL := v]> regs) PMC_FUSE_CTRL = to_u32 v.
Proof. rewrite <- fuse_ctrl_u32 at 1. apply reg32_insert_eq. Qed.

Lemma run_seq {A B} (c : pmc A) (k : pmc B) regs :
  actions (run (c ;; k) regs) =
  actions (run c regs) ++ actions (run k (final (run c regs))).
Proof.
  revert regs. induction c as [a | a h IH]; intros regs; cbn [bind run].
  - reflexivity.
  - destruct (perform a regs) as [[v regs1] e].
    specialize (IH v regs1). unfold actions, final in *.
    destruct (run (bind (h v) (fun _ => k)) regs1) as [[r regs2] t].
    destruct (run (h v) regs1) as [[r' regs2'] t'].
    cbn [fst snd] in *. now rewrite IH.
Qed.

Lemma count_writes_app reg t1 t2 :
  count_writes reg (t1 ++ t2) = (count_writes reg t1 + count_writes reg t2)%nat.
Proof. unfold count_writes. now rewrite List.filter_app, length_app. Qed.

(** The second of two [tegra_pmc_fuse_enable_mirroring] calls in a row
    finds ENABLE_REDIRECTION set and only reads. *)
Lemma enable_mirroring_again regs :
  actions (run tegra_pmc_fuse_enable_mirroring
             (final (run tegra_pmc_fuse_enable_mirroring regs))) =
  [Readl PMC_FUSE_CTRL
     (reg32 (final (run tegra_pmc_fuse_enable_mirroring regs)) PMC_FUSE_CTRL)].
Proof.
  rewrite (enable_mirroring_run (final _)). cbv zeta.
  rewrite (enable_mirroring_run regs). cbv zeta.
  destruct (c_true (Z.land (reg32 regs PMC_FUSE_CTRL) _)) eqn:Hbit;
    unfold final, fst, snd.
  - now rewrite Hbit.
  - now rewrite fuse_ctrl_after_write.
Qed.

Lemma disable_mirroring_again regs :
  actions (run tegra_pmc_fuse_disable_mirroring
             (final (run tegra_pmc_fuse_disable_mirroring regs))) =
  [Readl PMC_FUSE_CTRL
     (reg32 (final (run tegra_pmc_fuse_disable_mirroring regs)) PMC_FUSE_CTRL)].
Proof.
  rewrite (disable_mirroring_run (final _)). cbv zeta.
  rewrite (disable_mirroring_run regs). cbv zeta.
  destruct (c_true (Z.land (reg32 regs PMC_FUSE_CTRL) _)) eqn:Hbit;
    unfold final, fst, snd.
  - now rewrite fuse_ctrl_after_write.
  - now rewrite Hbit.
Qed.

Lemma enable_mirroring_writes regs :
  (count_writes PMC_FUSE_CTRL
     (actions (run tegra_pmc_fuse_enable_mirroring regs)) <= 1)%nat.
Proof.
  rewrite enable_mirroring_run. cbv zeta.
  destruct (c_true _); cbn; lia.
Qed.

Lemma disable_mirroring_writes regs :
  (count_writes PMC_FUSE_CTRL
     (actions (run tegra_pmc_fuse_disable_mirroring regs)) <= 1)%nat.
Proof.
  rewrite disable_mirroring_run. cbv zeta.
  destruct (c_true _); cbn; lia.
Qed.

(** C7.  Two [tegra_pmc_fuse_enable_mirroring] calls in a row write
    FUSE_CTRL at most once, and the second call writes nothing; the same
    for two [tegra_pmc_fuse_disable_mirroring] calls in a row. *)
Theorem mirroring_twice_one_write regs :
  let twice (c : pmc unit) := actions (run (c ;; c) regs) in
  let second (c : pmc unit) := actions (run c (final (run c regs))) in
  ((count_writes PMC_FUSE_CTRL (twice tegra_pmc_fuse_enable_mirroring) <= 1)%nat /\
   count_writes PMC_FUSE_CTRL (second tegra_pmc_fuse_enable_mirroring) = 0%nat) /\
  ((count_writes PMC_FUSE_CTRL (twice tegra_pmc_fuse_disable_mirroring) <= 1)%nat /\
   count_writes PMC_FUSE_CTRL (second tegra_pmc_fuse_disable_mirroring) = 0%nat).
Proof.
  cbv beta zeta. rewrite !run_seq, !count_writes_app.
  rewrite enable_mirroring_again, disable_mirroring_again.
  pose proof (enable_mirroring_writes regs).
  pose proof (disable_mirroring_writes regs).
  change (count_writes PMC_FUSE_CTRL [Readl PMC_FUSE_CTRL _]) with 0%nat.
  repeat split; lia.
Qed.

(** C10.  When [tegra_pmc_fuse_enable_mirroring] writes, that is when
    ENABLE_REDIRECTION was clear, the word written is the
    ENABLE_REDIRECTION bit alone, stored without a read-modify-write:
    FUSE_CTRL then reads back as exactly that bit, the PS18 latch bits
    included in what is zeroed.  [tegra_pmc_fuse_disable_mirroring], when
    ENABLE_REDIRECTION was set, stores exactly the DISABLE_REDIRECTION bit
    in the same way. *)
Theorem mirroring_plain_write regs_e regs_d :
  Z.land (reg32 regs_e PMC_FUSE_CTRL) PMC_FUSE_CTRL_ENABLE_REDIRECTION = 0 ->
  Z.land (reg32 regs_d PMC_FUSE_CTRL) PMC_FUSE_CTRL_ENABLE_REDIRECTION <> 0 ->
  let e := run tegra_pmc_fuse_enable_mirroring regs_e in
  let d := run tegra_pmc_fuse_disable_mirroring regs_d in
  let latches :=
    Z.lor PMC_FUSE_CTRL_PS18_LATCH_SET PMC_FUSE_CTRL_PS18_LATCH_CLEAR in
  (actions e = [Readl PMC_FUSE_CTRL (reg32 regs_e PMC_FUSE_CTRL);
                Writel PMC_FUSE_CTRL_ENABLE_REDIRECTION PMC_FUSE_CTRL] /\
   reg32 (final e) PMC_FUSE_CTRL = PMC_FUSE_CTRL_ENABLE_REDIRECTION /\
   Z.land (reg32 (final e) PMC_FUSE_CTRL) latches = 0) /\
  (actions d = [Readl PMC_FUSE_CTRL (reg32 regs_d PMC_FUSE_CTRL);
                Writel PMC_FUSE_CTRL_DISABLE_REDIRECTION PMC_FUSE_CTRL] /\
   reg32 (final d) PMC_FUSE_CTRL = PMC_FUSE_CTRL_DISABLE_REDIRECTION /\
   Z.land (reg32 (final d) PMC_FUSE_CTRL) latches = 0).
Proof.
  intros He Hd. cbv zeta.
  rewrite enable_mirroring_run, disable_mirroring_run. cbv zeta.
  unfold c_true. rewrite He.
  destruct (Z.eqb_spec (Z.land (reg32 regs_d PMC_FUSE_CTRL)
                               PMC_FUSE_CTRL_ENABLE_REDIRECTION) 0) as [H0|_];
    [contradiction|].
  cbn [negb Z.eqb actions final fst snd].
  rewrite !fuse_ctrl_after_write.
  repeat split; reflexivity.
Qed.

Lemma mirroring_plain_write_witness :
  Z.land (reg32 {[ 0x100 := 0x300 ]} PMC_FUSE_CTRL)
         PMC_FUSE_CTRL_ENABLE_REDIRECTION = 0 /\
  Z.land (reg32 {[ 0x100 := 0x301 ]} PMC_FUSE_CTRL)
         PMC_FUSE_CTRL_ENABLE_REDIRECTION <> 0 /\
  reg32 (final (run tegra_pmc_fuse_enable_mirroring {[ 0x100 := 0x300 ]}))
        PMC_FUSE_CTRL = 1 /\
  reg32 (final (run tegra_pmc_fuse_disable_mirroring {[ 0x100 := 0x301 ]}))
        PMC_FUSE_CTRL = 2.
Proof.
  assert (He : Z.land (reg32 {[ 0x100 := 0x300 ]} PMC_FUSE_CTRL)
                      PMC_FUSE_CTRL_ENABLE_REDIRECTION = 0) by reflexivity.
  assert (Hd : Z.land (reg32 {[ 0x100 := 0x301 ]} PMC_FUSE_CTRL)
                      PMC_FUSE_CTRL_ENABLE_REDIRECTION <> 0)
    by (vm_compute; discriminate).
  pose proof (mirroring_plain_write _ _ He Hd) as [[_ [H1 _]] [_ [H2 _]]].
  repeat split; assumption.
Defined.

(** ** NVCSI brick DPD *)

Lemma to_u32_lor a b :
  is_u32 a -> is_u32 b -> to_u32 (Z.lor a b) = Z.lor a b.
Proof.
  intros Ha Hb.
  rewrite <- (to_u32_small a Ha), <- (to_u32_small b Hb).
  bits i Hi. bool_cases.
Qed.

Lemma clear_mask_word r m :
  is_u32 r -> to_u32 (Z.land r (ulong_not m)) = Z.land r (Z.lnot m).
Proof.
  intros Hr. rewrite <- (to_u32_small r Hr).
  bits i Hi. bool_cases.
Qed.

Lemma reg32_is_u32 regs reg : is_u32 (reg32 regs reg).
Proof. apply reg32_range. Qed.

Lemma brick_regs_other (regs : gmap Z Z) v1 v2 reg :
  to_u32 reg <> PMC_IO_DPD_REQ -> to_u32 reg <> PMC_IO_DPD2_REQ ->
  reg32 (<[PMC_IO_DPD2_REQ := v2]> (<[PMC_IO_DPD_REQ := v1]> regs)) reg =
  reg32 regs reg.
Proof.
  intros H1 H2. unfold reg32, load.
  rewrite lookup_insert_ne by congruence.
  now rewrite lookup_insert_ne by congruence.
Qed.

Lemma brick_regs_req (regs : gmap Z Z) v1 v2 :
  reg32 (<[PMC_IO_DPD2_REQ := v2]> (<[PMC_IO_DPD_REQ := v1]> regs)) PMC_IO_DPD_REQ
  = to_u32 v1.
Proof.
  unfold reg32, load. change (to_u32 PMC_IO_DPD_REQ) with PMC_IO_DPD_REQ.
  rewrite lookup_insert_ne by discriminate.
  now rewrite lookup_insert_eq.
Qed.

Lemma brick_regs_req2 (regs : gmap Z Z) v1 v2 :
  reg32 (<[PMC_IO_DPD2_REQ := v2]> (<[PMC_IO_DPD_REQ := v1]> regs)) PMC_IO_DPD2_REQ
  = to_u32 v2.
Proof.
  unfold reg32, load. change (to_u32 PMC_IO_DPD2_REQ) with PMC_IO_DPD2_REQ.
  now rewrite lookup_insert_eq.
Qed.

Lemma brick_req2_before (regs : gmap Z Z) v1 :
  reg32 (<[PMC_IO_DPD_REQ := v1]> regs) PMC_IO_DPD2_REQ = reg32 regs PMC_IO_DPD2_REQ.
Proof.
  unfold reg32, load. change (to_u32 PMC_IO_DPD2_REQ) with PMC_IO_DPD2_REQ.
  now rewrite lookup_insert_ne by discriminate.
Qed.

Lemma enable_nvcsi_brick_dpd_run regs :
  let r1 := reg32 regs PMC_IO_DPD_REQ in
  let r2 := reg32 regs PMC_IO_DPD2_REQ in
  let v1 := Z.lor r1 0x3 in
  let v2 := Z.lor r2 0x7800 in
  run tegra186_pmc_enable_nvcsi_brick_dpd regs =
  (tt, <[PMC_IO_DPD2_REQ := v2]> (<[PMC_IO_DPD_REQ := v1]> regs),
   [Readl PMC_IO_DPD_REQ r1; Writel v1 PMC_IO_DPD_REQ;
    Readl PMC_IO_DPD2_REQ r2; Writel v2 PMC_IO_DPD2_REQ]).
Proof.
  cbv zeta. run_pmc.
  change (to_u32 PMC_IO_DPD_REQ) with PMC_IO_DPD_REQ.
  change (to_u32 PMC_IO_DPD2_REQ) with PMC_IO_DPD2_REQ.
  rewrite brick_req2_before, !to_u32_idem.
  change PMC_IO_DPD_CSIA_MASK with 1. change PMC_IO_DPD_CSIB_MASK with 2.
  change NVCSI_CDEF_MASK with 0x7800.
  pose proof (reg32_is_u32 regs PMC_IO_DPD_REQ) as H1.
  pose proof (reg32_is_u32 regs PMC_IO_DPD2_REQ) as H2.
  assert (Hu : forall c, is_u32 c -> forall r, is_u32 r -> is_u32 (Z.lor r c)).
  { intros c Hc r Hr. rewrite <- to_u32_lor by assumption. apply to_u32_range. }
  assert (is_u32 1) by (unfold is_u32; lia).
  assert (is_u32 2) by (unfold is_u32; lia).
  assert (is_u32 0x7800) by (unfold is_u32; lia).
  rewrite (to_u32_lor _ 1) by assumption.
  rewrite (to_u32_lor _ 2) by (auto using Hu).
  rewrite (to_u32_lor _ 0x7800) by assumption.
  rewrite <- Z.lor_assoc. reflexivity.
Qed.

Lemma disable_nvcsi_brick_dpd_run regs :
  let r1 := reg32 regs PMC_IO_DPD_REQ in
  let r2 := reg32 regs PMC_IO_DPD2_REQ in
  let v1 := Z.land r1 (Z.lnot 0x3) in
  let v2 := Z.land r2 (Z.lnot 0x7800) in
  run tegra186_pmc_disable_nvcsi_brick_dpd regs =
  (tt, <[PMC_IO_DPD2_REQ := v2]> (<[PMC_IO_DPD_REQ := v1]> regs),
   [Readl PMC_IO_DPD_REQ r1; Writel v1 PMC_IO_DPD_REQ;
    Readl PMC_IO_DPD2_REQ r2; Writel v2 PMC_IO_DPD2_REQ]).
Proof.
  cbv zeta. run_pmc.
  change (to_u32 PMC_IO_DPD_REQ) with PMC_IO_DPD_REQ.
  change (to_u32 PMC_IO_DPD2_REQ) with PMC_IO_DPD2_REQ.
  rewrite brick_req2_before, !to_u32_idem.
  change NVCSI_AB_MASK with 0x3. change NVCSI_CDEF_MASK with 0x7800.
  now rewrite !clear_mask_word by apply reg32_is_u32.
Qed.

Lemma land_lnot_u32 r m : is_u32 r -> is_u32 (Z.land r (Z.lnot m)).
Proof.
  intros Hr. rewrite <- clear_mask_word by assumption. apply to_u32_range.
Qed.

Lemma lor_u32 r m : is_u32 r -> is_u32 m -> is_u32 (Z.lor r m).
Proof.
  intros Hr Hm. rewrite <- to_u32_lor by assumption. apply to_u32_range.
Qed.

(** C8.  [tegra186_pmc_enable_nvcsi_brick_dpd] leaves IO_DPD_REQ (0x74) as
    its old content with bits 0 and 1 set, IO_DPD2_REQ (0x7C) as its old
    content with bits 11 to 14 set, and every other register as it was;
    [tegra186_pmc_disable_nvcsi_brick_dpd] leaves the two registers as
    their old content with the same bits cleared, and every other register
    as it was. *)
Theorem nvcsi_brick_dpd_frame regs :
  let en := final (run tegra186_pmc_enable_nvcsi_brick_dpd regs) in
  let dis := final (run tegra186_pmc_disable_nvcsi_brick_dpd regs) in
  let other reg := to_u32 reg <> 0x74 /\ to_u32 reg <> 0x7C in
  (reg32 en 0x74 = Z.lor (reg32 regs 0x74) 0x3 /\
   reg32 en 0x7C = Z.lor (reg32 regs 0x7C) 0x7800 /\
   forall reg, other reg -> reg32 en reg = reg32 regs reg) /\
  (reg32 dis 0x74 = Z.land (reg32 regs 0x74) (Z.lnot 0x3) /\
   reg32 dis 0x7C = Z.land (reg32 regs 0x7C) (Z.lnot 0x7800) /\
   forall reg, other reg -> reg32 dis reg = reg32 regs reg).
Proof.
  cbv beta zeta.
  rewrite enable_nvcsi_brick_dpd_run, disable_nvcsi_brick_dpd_run.
  cbv zeta. unfold final, fst, snd.
  change 0x74 with PMC_IO_DPD_REQ. change 0x7C with PMC_IO_DPD2_REQ.
  rewrite !brick_regs_req, !brick_regs_req2.
  assert (H3 : is_u32 0x3) by (unfold is_u32; lia).
  assert (H7 : is_u32 0x7800) by (unfold is_u32; lia).
  repeat split.
  - apply to_u32_small, lor_u32; [apply reg32_is_u32 | assumption].
  - apply to_u32_small, lor_u32; [apply reg32_is_u32 | assumption].
  - intros reg [Ha Hb]. now apply brick_regs_other.
  - apply to_u32_small, land_lnot_u32, reg32_is_u32.
  - apply to_u32_small, land_lnot_u32, reg32_is_u32.
  - intros reg [Ha Hb]. now apply brick_regs_other.
Qed.

(** Bit by bit: which bits of a word [Z.lor r m] and [Z.land r (Z.lnot m)]
    differ from those of [r]. *)
Lemma set_bits_exactly r m i :
  Z.testbit (Z.lor r m) i = Z.testbit m i || Z.testbit r i.
Proof. rewrite Z.lor_spec. apply orb_comm. Qed.

Lemma clear_bits_exactly r m i :
  0 <= i -> Z.testbit (Z.land r (Z.lnot m)) i = negb (Z.testbit m i) && Z.testbit r i.
Proof. intros Hi. rewrite Z.land_spec, Z.lnot_spec by assumption. apply andb_comm. Qed.

(** ** I/O power *)

Lemma updated_again r mask v w :
  updated (updated r mask v) mask w = updated r mask w.
Proof.
  apply Z.bits_inj'; intros i Hi.
  rewrite !testbit_updated by assumption.
  destruct (Z.ltb_spec i 32); [|reflexivity].
  destruct (Z.ltb_spec i 64); [|lia].
  destruct (Z.testbit mask i); reflexivity.
Qed.

Lemma register_update_overwrite regs offset mask v w :
  final (run (tegra186_pmc_register_update offset mask w)
          (final (run (tegra186_pmc_register_update offset mask v) regs))) =
  final (run (tegra186_pmc_register_update offset mask w) regs).
Proof.
  rewrite register_update_twice, register_update_final.
  now rewrite updated_again.
Qed.

(** C9.  [tegra_pmc_iopower_enable(reg, mask)] is the one call
    [tegra186_pmc_register_update(reg, mask, 0)] and
    [tegra_pmc_iopower_disable(reg, mask)] the one call
    [tegra186_pmc_register_update(reg, mask, mask)].  After enable the
    masked bits read back as 0, after disable as [mask], the other bits as
    before; each undoes the other on those bits: enable after disable
    leaves what enable alone leaves, and disable after enable what disable
    alone leaves. *)
Theorem iopower_enable_disable regs reg bit_mask :
  is_u32 bit_mask ->
  let en r := final (run (tegra_pmc_iopower_enable reg bit_mask) r) in
  let dis r := final (run (tegra_pmc_iopower_disable reg bit_mask) r) in
  let outside r := Z.land (reg32 r reg) (ulong_not bit_mask) in
  (tegra_pmc_iopower_enable reg bit_mask =
     tegra186_pmc_register_update reg bit_mask 0 /\
   tegra_pmc_iopower_disable reg bit_mask =
     tegra186_pmc_register_update reg bit_mask bit_mask) /\
  (Z.land (reg32 (en regs) reg) bit_mask = 0 /\
   outside (en regs) = outside regs) /\
  (Z.land (reg32 (dis regs) reg) bit_mask = bit_mask /\
   outside (dis regs) = outside regs) /\
  (en (dis regs) = en regs /\ dis (en regs) = dis regs).
Proof.
  intros Hm. cbv beta zeta.
  unfold tegra_pmc_iopower_enable, tegra_pmc_iopower_disable.
  split; [split; reflexivity|].
  rewrite !register_update_overwrite.
  rewrite !register_update_in_mask, !register_update_out_of_mask.
  rewrite Z.land_0_l, Z.land_diag.
  repeat split; try reflexivity.
  now apply to_u32_small.
Qed.

Lemma iopower_enable_disable_witness :
  is_u32 0x30 /\
  Z.land (reg32 (final (run (tegra_pmc_iopower_enable 0x34 0x30)
                          {[ 0x34 := 0xFF ]})) 0x34) 0x30 = 0 /\
  Z.land (reg32 (final (run (tegra_pmc_iopower_disable 0x34 0x30)
                          {[ 0x34 := 0xC0 ]})) 0x34) 0x30 = 0x30.
Proof.
  assert (Hm : is_u32 0x30) by (unfold is_u32; lia).
  split; [exact Hm|]. split.
  - exact (proj1 (proj1 (proj2 (iopower_enable_disable {[ 0x34 := 0xFF ]} 0x34 0x30 Hm)))).
  - exact (proj1 (proj1 (proj2 (proj2
             (iopower_enable_disable {[ 0x34 := 0xC0 ]} 0x34 0x30 Hm))))).
Defined.

(** ** Lock discipline *)

Lemma register_update_guarded regs offset mask val :
  writes_guarded (actions (run (tegra186_pmc_register_update offset mask val) regs))
  = true.
Proof. now rewrite register_update_run. Qed.

Lemma brick_update_guarded regs mask val :
  writes_guarded (actions (run (tegra_pmc_nvcsi_ab_brick_update mask val) regs))
  = true /\
  writes_guarded (actions (run (tegra_pmc_nvcsi_cdef_brick_update mask val) regs))
  = true.
Proof. split; reflexivity. Qed.

Lemma io_dpd_guarded regs reg bit_pos :
  writes_guarded (actions (run (tegra186_pmc_io_dpd_enable reg bit_pos) regs))
  = true /\
  writes_guarded (actions (run (tegra186_pmc_io_dpd_disable reg bit_pos) regs))
  = true.
Proof.
  rewrite io_dpd_enable_run, io_dpd_disable_run. cbv zeta.
  unfold actions, snd.
  split; destruct (c_true _); reflexivity.
Qed.

(** C2.  The fuse-latch and NVCSI brick DPD sequences are not run under
    [tegra186_pmc_access_lock]: each of the four routines reads and writes
    its registers without a single lock operation, so every one of its
    writes happens with the lock not held, on any register block.  The
    guard of the sibling update routine does not protect against them:
    with IO_DPD_REQ at 0, [tegra_pmc_nvcsi_ab_brick_update(0x4, 0x4)] run
    between the read and the write of
    [tegra186_pmc_enable_nvcsi_brick_dpd] is lost (the register ends as
    0x3), where either call run wholly before the other leaves 0x7. *)
Theorem latch_and_brick_unguarded regs :
  let acts (c : pmc unit) := actions (run c regs) in
  let brick := tegra186_pmc_enable_nvcsi_brick_dpd in
  let update := tegra_pmc_nvcsi_ab_brick_update 0x4 0x4 in
  ((lock_free (acts tegra_pmc_fuse_control_ps18_latch_set) = true /\
    writes_guarded (acts tegra_pmc_fuse_control_ps18_latch_set) = false) /\
   (lock_free (acts tegra_pmc_fuse_control_ps18_latch_clear) = true /\
    writes_guarded (acts tegra_pmc_fuse_control_ps18_latch_clear) = false) /\
   (lock_free (acts tegra186_pmc_enable_nvcsi_brick_dpd) = true /\
    writes_guarded (acts tegra186_pmc_enable_nvcsi_brick_dpd) = false) /\
   (lock_free (acts tegra186_pmc_disable_nvcsi_brick_dpd) = true /\
    writes_guarded (acts tegra186_pmc_disable_nvcsi_brick_dpd) = false)) /\
  (outcome [false; true; true; true; true; false; false; false]
           ∅ brick update PMC_IO_DPD_REQ = Some 0x3 /\
   outcome [false; false; false; false; true; true; true; true]
           ∅ brick update PMC_IO_DPD_REQ = Some 0x7 /\
   outcome [true; true; true; true; false; false; false; false]
           ∅ brick update PMC_IO_DPD_REQ = Some 0x7).
Proof.
  cbv beta zeta. split.
  - rewrite latch_set_run, latch_clear_run.
    rewrite enable_nvcsi_brick_dpd_run, disable_nvcsi_brick_dpd_run.
    cbv zeta. unfold actions, snd.
    repeat split; reflexivity.
  - repeat split; vm_compute; reflexivity.
Qed.

(** * Further properties of the driver *)

(** ** The update primitive and its wrappers *)

Lemma register_update_elsewhere regs offset mask val reg :
  to_u32 reg <> to_u32 offset ->
  reg32 (final (run (tegra186_pmc_register_update offset mask val) regs)) reg
  = reg32 regs reg.
Proof.
  intros Hne. rewrite register_update_final.
  apply reg32_insert_ne. congruence.
Qed.

Lemma register_update_there regs offset mask val reg :
  to_u32 reg = to_u32 offset ->
  reg32 (final (run (tegra186_pmc_register_update offset mask val) regs)) reg
  = updated (reg32 regs offset) mask val.
Proof.
  intros He. rewrite register_update_final. unfold reg32 at 1. rewrite He.
  rewrite load_insert_eq. apply to_u32_small, updated_range.
Qed.

(** X1.  [tegra186_pmc_register_update] touches one register only: the
    register the offset designates ends as [(old & ~mask) | (val & mask)]
    in 32 bits and every other register of the block reads as before.  It
    does so with exactly one write, made with the lock held. *)
Theorem register_update_effect regs offset mask val reg :
  let r := run (tegra186_pmc_register_update offset mask val) regs in
  reg32 (final r) reg =
    (if to_u32 reg =? to_u32 offset
     then to_u32 (Z.lor (Z.land (reg32 regs offset) (ulong_not mask))
                        (Z.land val mask))
     else reg32 regs reg) /\
  count_writes (to_u32 offset) (actions r) = 1%nat /\
  (forall other, other <> to_u32 offset -> count_writes other (actions r) = 0%nat) /\
  writes_guarded (actions r) = true.
Proof.
  cbv zeta. split.
  - destruct (Z.eqb_spec (to_u32 reg) (to_u32 offset)) as [He|Hne].
    + now apply register_update_there.
    + now apply register_update_elsewhere.
  - rewrite register_update_run. unfold actions, snd, count_writes.
    cbn [List.filter is_write_to length].
    rewrite Z.eqb_refl. repeat split.
    intros other Hne.
    destruct (Z.eqb_spec (to_u32 offset) other); [congruence | reflexivity].
Qed.

Lemma testbit_merged_val v1 m2 v2 i :
  0 <= i -> i < 64 ->
  Z.testbit (merged_val v1 m2 v2) i =
  if Z.testbit m2 i then Z.testbit v2 i else Z.testbit v1 i.
Proof.
  intros Hi Hlt. unfold merged_val.
  rewrite Z.lor_spec, !Z.land_spec, testbit_ulong_not by assumption.
  destruct (Z.ltb_spec i 64); [|lia].
  destruct (Z.testbit m2 i), (Z.testbit v1 i), (Z.testbit v2 i); reflexivity.
Qed.

Lemma updated_merge r m1 v1 m2 v2 :
  updated (updated r m1 v1) m2 v2 =
  updated r (Z.lor m1 m2) (merged_val v1 m2 v2).
Proof.
  apply Z.bits_inj'; intros i Hi.
  rewrite !testbit_updated by assumption.
  destruct (Z.ltb_spec i 32) as [Hlt|Hge]; [|reflexivity].
  rewrite Z.lor_spec, testbit_merged_val by lia.
  destruct (Z.ltb_spec i 64); [|lia].
  destruct (Z.testbit m1 i), (Z.testbit m2 i); reflexivity.
Qed.

(** X2.  Two [tegra186_pmc_register_update] calls on one register, one
    after the other, leave the block that a single call leaves: its mask
    is the union of the two masks and its value takes the second value
    under the second mask and the first value elsewhere.  Where the masks
    overlap the later call wins; a call repeated is a call made once. *)
Theorem register_update_merge regs offset m1 v1 m2 v2 :
  let upd m v r := final (run (tegra186_pmc_register_update offset m v) r) in
  upd m2 v2 (upd m1 v1 regs) =
    upd (Z.lor m1 m2) (Z.lor (Z.land v1 (ulong_not m2)) (Z.land v2 m2)) regs /\
  upd m1 v2 (upd m1 v1 regs) = upd m1 v2 regs /\
  upd m1 v1 (upd m1 v1 regs) = upd m1 v1 regs.
Proof.
  cbv beta zeta. rewrite !register_update_twice, !register_update_final.
  fold (merged_val v1 m2 v2).
  rewrite updated_merge, !updated_again. repeat split; reflexivity.
Qed.

Lemma updated_empty_mask r val : 0 <= r < 2 ^ 32 -> updated r 0 val = r.
Proof.
  intros Hr. rewrite <- (to_u32_small r Hr) at 2.
  apply Z.bits_inj'; intros i Hi.
  rewrite testbit_updated, testbit_to_u32, Z.bits_0 by assumption.
  destruct (Z.ltb_spec i 32); [|reflexivity].
  destruct (Z.ltb_spec i 64); [reflexivity | lia].
Qed.

Lemma updated_full_mask r val : updated r (2 ^ 32 - 1) val = to_u32 val.
Proof.
  apply Z.bits_inj'; intros i Hi.
  rewrite testbit_updated, testbit_to_u32 by assumption.
  destruct (Z.ltb_spec i 32) as [Hlt|Hge]; [|reflexivity].
  change (2 ^ 32 - 1) with (Z.ones 32).
  rewrite Z.ones_spec_low by lia. reflexivity.
Qed.

(** X3.  The two extreme masks.  With mask 0 the call changes the content
    of no register, yet it still writes: the word it read goes back to the
    register.  With mask 0xFFFFFFFF the old content does not matter and
    the register ends as the value's low 32 bits. *)
Theorem register_update_extreme_masks regs offset val reg :
  let none := run (tegra186_pmc_register_update offset 0 val) regs in
  let all := run (tegra186_pmc_register_update offset 0xFFFFFFFF val) regs in
  (reg32 (final none) reg = reg32 regs reg /\
   actions none = [SpinLockIrqsave;
                   Readl (to_u32 offset) (reg32 regs offset);
                   Writel (reg32 regs offset) (to_u32 offset);
                   SpinUnlockIrqrestore]) /\
  reg32 (final all) offset = to_u32 val.
Proof.
  cbv zeta. repeat split.
  - destruct (Z.eq_dec (to_u32 reg) (to_u32 offset)) as [He|Hne].
    + rewrite register_update_there by assumption.
      rewrite updated_empty_mask by apply reg32_range.
      unfold reg32. now rewrite He.
    + now apply register_update_elsewhere.
  - rewrite register_update_run. unfold actions, snd.
    now rewrite updated_empty_mask by apply reg32_range.
  - rewrite register_update_there by reflexivity.
    apply updated_full_mask.
Qed.

(** X4.  The eight query routines are reads and nothing else: each leaves
    the register block unchanged and performs a single [readl] of its
    register, with no write, no delay, no log line and no lock operation. *)
Theorem queries_read_only regs reg bit :
  reads_only (tegra_pmc_register_get reg) reg regs /\
  reads_only (tegra_pmc_pad_voltage_get reg) reg regs /\
  reads_only tegra_pmc_nvcsi_ab_brick_getstatus PMC_IO_DPD_REQ regs /\
  reads_only tegra_pmc_nvcsi_cdef_brick_getstatus PMC_IO_DPD2_REQ regs /\
  reads_only tegra_pmc_ufs_pwrcntrl_get PMC_UFSHC_PWR_CNTRL_0 regs /\
  reads_only tegra_pmc_sata_pwrgt_get PMC_SATA_PWRGT_0 regs /\
  reads_only tegra_pmc_is_halt_in_fiq PMC_IMPL_RAMDUMP_CTL_STATUS regs /\
  reads_only (tegra_pmc_iopower_get_status reg bit) reg regs /\
  reads_only (tegra186_pmc_io_dpd_get_status reg bit)
             (to_int (PMC_IO_DPD_STATUS + to_int (reg * 8))) regs.
Proof.
  unfold reads_only.
  repeat match goal with |- _ /\ _ => split end; try reflexivity.
  - unfold tegra_pmc_iopower_get_status, tegra186_pmc_readl. cbn [bind run perform].
    change (load regs (to_u32 reg)) with (reg32 regs reg).
    destruct (c_true _); reflexivity.
  - unfold tegra_pmc_iopower_get_status, tegra186_pmc_readl. cbn [bind run perform].
    change (load regs (to_u32 reg)) with (reg32 regs reg).
    destruct (c_true _); reflexivity.
  - unfold tegra186_pmc_io_dpd_get_status, tegra186_pmc_readl.
    cbn [bind run perform]. destruct (c_true _); reflexivity.
  - unfold tegra186_pmc_io_dpd_get_status, tegra186_pmc_readl.
    cbn [bind run perform]. destruct (c_true _); reflexivity.
Qed.

Lemma pad_voltage_update_run regs reg mask val :
  run (tegra_pmc_pad_voltage_update reg mask val) regs =
  run (tegra186_pmc_register_update reg mask val) regs.
Proof.
  unfold tegra_pmc_pad_voltage_update, tegra186_pmc_register_update,
    _tegra186_pmc_register_update, tegra186_pmc_readl, tegra186_pmc_writel.
  now rewrite !to_u32_to_int.
Qed.

(** X5.  Each update wrapper is [tegra186_pmc_register_update] at its own
    register, and the matching query reads the result back: after
    [update(mask, val)] the query returns [(old & ~mask) | (val & mask)]
    in 32 bits, for the pad-voltage pair at any register and for the
    NVCSI A/B, NVCSI C-F, UFS and SATA pairs at their fixed registers. *)
Theorem wrapper_update_then_query regs reg mask val :
  let word off := updated (reg32 regs off) mask val in
  result (run (tegra_pmc_pad_voltage_get reg)
            (final (run (tegra_pmc_pad_voltage_update reg mask val) regs)))
  = word reg /\
  result (run tegra_pmc_nvcsi_ab_brick_getstatus
            (final (run (tegra_pmc_nvcsi_ab_brick_update mask val) regs)))
  = word 0x74 /\
  result (run tegra_pmc_nvcsi_cdef_brick_getstatus
            (final (run (tegra_pmc_nvcsi_cdef_brick_update mask val) regs)))
  = word 0x7C /\
  result (run tegra_pmc_ufs_pwrcntrl_get
            (final (run (tegra_pmc_ufs_pwrcntrl_update mask val) regs)))
  = word 0xF4 /\
  result (run tegra_pmc_sata_pwrgt_get
            (final (run (tegra_pmc_sata_pwrgt_update mask val) regs)))
  = word 0x68.
Proof.
  cbv beta zeta. rewrite pad_voltage_update_run.
  change (tegra_pmc_nvcsi_ab_brick_update mask val)
    with (tegra186_pmc_register_update PMC_IO_DPD_REQ mask val).
  change (tegra_pmc_nvcsi_cdef_brick_update mask val)
    with (tegra186_pmc_register_update PMC_IO_DPD2_REQ mask val).
  change (tegra_pmc_ufs_pwrcntrl_update mask val)
    with (tegra186_pmc_register_update PMC_UFSHC_PWR_CNTRL_0 mask val).
  change (tegra_pmc_sata_pwrgt_update mask val)
    with (tegra186_pmc_register_update PMC_SATA_PWRGT_0 mask val).
  change (result (run (tegra_pmc_pad_voltage_get reg) ?r)) with (reg32 r reg).
  repeat split;
    match goal with
    | |- result (run _ ?r) = updated (reg32 _ ?off) _ _ =>
        change (reg32 r off = updated (reg32 regs off) mask val)
    | _ => idtac
    end;
    now apply register_update_there.
Qed.

(** ** DPD groups *)

Lemma io_dpd_get_status_result regs reg bit_pos :
  result (run (tegra186_pmc_io_dpd_get_status reg bit_pos) regs) =
  if c_true (Z.land (reg32 regs (to_int (PMC_IO_DPD_STATUS + to_int (reg * 8))))
                    (BIT bit_pos))
  then 1 else 0.
Proof.
  unfold tegra186_pmc_io_dpd_get_status, tegra186_pmc_readl.
  cbn [bind run perform].
  change (load regs (to_u32 ?x)) with (reg32 regs x).
  destruct (c_true _); reflexivity.
Qed.

Lemma BIT_in_range b : 0 <= b < 32 -> BIT b = Z.shiftl 1 b.
Proof.
  intros Hb. unfold BIT, to_ulong, BITS_PER_LONG.
  apply Z.mod_small. rewrite Z.shiftl_1_l. split.
  - apply Z.pow_nonneg. lia.
  - apply Z.pow_lt_mono_r; lia.
Qed.

Lemma group_status_reg32 regs g :
  0 <= g < 8 ->
  reg32 regs (to_int (PMC_IO_DPD_STATUS + to_int (g * 8))) =
  reg32 regs (PMC_IO_DPD_STATUS + g * 8).
Proof.
  intros Hg. unfold reg32. f_equal.
  rewrite group_offset_in_range by (unfold PMC_IO_DPD_STATUS; lia).
  symmetry. apply to_u32_small. unfold PMC_IO_DPD_STATUS. lia.
Qed.

Lemma io_dpd_enable_final regs g b :
  0 <= g < 8 -> 0 <= b < 32 ->
  final (run (tegra186_pmc_io_dpd_enable g b) regs) =
  <[PMC_IO_DPD_REQ + g * 8 := Z.shiftl 1 b]> (<[PMC_IO_SEL_DPD_TIM := 0x10]> regs).
Proof.
  intros Hg Hb. rewrite io_dpd_enable_run. cbv zeta. unfold final, fst, snd.
  rewrite group_offset_in_range by (unfold PMC_IO_DPD_REQ; lia).
  now rewrite enable_mask_in_range.
Qed.

Lemma io_dpd_disable_final regs g b :
  0 <= g < 8 -> 0 <= b < 32 ->
  final (run (tegra186_pmc_io_dpd_disable g b) regs) =
  <[PMC_IO_DPD_REQ + g * 8 := Z.shiftl 1 b]> regs.
Proof.
  intros Hg Hb. rewrite io_dpd_disable_run. cbv zeta. unfold final, fst, snd.
  rewrite group_offset_in_range by (unfold PMC_IO_DPD_REQ; lia).
  now rewrite enable_mask_in_range.
Qed.

Lemma shiftl_1_u32 b : 0 <= b < 32 -> to_u32 (Z.shiftl 1 b) = Z.shiftl 1 b.
Proof. intros Hb. rewrite <- enable_mask_in_range at 2 by assumption.
       now rewrite to_u32_to_int. Qed.

(** X6.  What the DPD sequences leave in the register block, for a group
    in 0..7 and a bit in 0..31.  Enable leaves the timer register 0xBC at
    0x10 and the group's request register at [1 << b] alone: the plain
    write drops every other bit the request register held.  Disable leaves
    the request register at the same word [1 << b].  No other register
    changes, the group's status register included. *)
Theorem io_dpd_register_effect regs g b :
  0 <= g < 8 -> 0 <= b < 32 ->
  let e := final (run (tegra186_pmc_io_dpd_enable g b) regs) in
  let d := final (run (tegra186_pmc_io_dpd_disable g b) regs) in
  let req := 0x74 + g * 8 in
  (reg32 e 0xBC = 0x10 /\
   reg32 e req = Z.shiftl 1 b /\
   forall reg, to_u32 reg <> 0xBC -> to_u32 reg <> req ->
               reg32 e reg = reg32 regs reg) /\
  (reg32 d req = Z.shiftl 1 b /\
   forall reg, to_u32 reg <> req -> reg32 d reg = reg32 regs reg).
Proof.
  intros Hg Hb. cbv zeta.
  rewrite io_dpd_enable_final, io_dpd_disable_final by assumption.
  unfold PMC_IO_DPD_REQ, PMC_IO_SEL_DPD_TIM.
  assert (Hreq : to_u32 (0x74 + g * 8) = 0x74 + g * 8)
    by (apply to_u32_small; lia).
  assert (Hbit := shiftl_1_u32 b Hb).
  unfold reg32, load. rewrite Hreq.
  change (to_u32 0xBC) with 0xBC.
  repeat split.
  - rewrite lookup_insert_ne by lia. now rewrite lookup_insert_eq.
  - now rewrite lookup_insert_eq.
  - intros reg H1 H2.
    rewrite lookup_insert_ne by congruence.
    now rewrite lookup_insert_ne by congruence.
  - now rewrite lookup_insert_eq.
  - intros reg H1. now rewrite lookup_insert_ne by congruence.
Qed.

Lemma io_dpd_register_effect_witness :
  0 <= 1 < 8 /\ 0 <= 11 < 32 /\
  reg32 (final (run (tegra186_pmc_io_dpd_enable 1 11) {[ 0x7C := 0x7800 ]})) 0x7C
  = 0x800 /\
  reg32 (final (run (tegra186_pmc_io_dpd_disable 1 11) {[ 0x7C := 0x7800 ]})) 0x7C
  = 0x800.
Proof.
  assert (Hg : 0 <= 1 < 8) by lia.
  assert (Hb : 0 <= 11 < 32) by lia.
  pose proof (io_dpd_register_effect {[ 0x7C := 0x7800 ]} 1 11 Hg Hb)
    as [[_ [He _]] [Hd _]].
  split; [exact Hg|]. split; [exact Hb|]. split; [exact He | exact Hd].
Defined.

Lemma io_dpd_enable_logs regs reg bit_pos :
  let e := run (tegra186_pmc_io_dpd_enable reg bit_pos) regs in
  logs_failure (actions e) =
  negb (c_true (Z.land (reg32 (final e)
                              (to_int (PMC_IO_DPD_STATUS + to_int (reg * 8))))
                       (to_u32 (to_int (Z.shiftl 1 bit_pos))))).
Proof.
  cbv zeta. rewrite io_dpd_enable_run. cbv zeta. unfold actions, final, fst, snd.
  change (reg32 ?r ?x) with (load r (to_u32 x)).
  destruct (c_true _); reflexivity.
Qed.

Lemma io_dpd_disable_logs regs reg bit_pos :
  let d := run (tegra186_pmc_io_dpd_disable reg bit_pos) regs in
  logs_failure (actions d) =
  c_true (Z.land (reg32 (final d)
                        (to_int (PMC_IO_DPD_STATUS + to_int (reg * 8))))
                 (to_u32 (to_int (Z.shiftl 1 bit_pos)))).
Proof.
  cbv zeta. rewrite io_dpd_disable_run. cbv zeta. unfold actions, final, fst, snd.
  change (reg32 ?r ?x) with (load r (to_u32 x)).
  destruct (c_true _); reflexivity.
Qed.

(** X7.  [tegra186_pmc_io_dpd_get_status] answers 1 when bit [b] of the
    group's status register is set and 0 when it is clear, and it is the
    test the two sequences make after their wait: enable logs a failure
    exactly when a status query on the block it leaves answers 0, disable
    exactly when it answers 1 (group in 0..7, bit in 0..31). *)
Theorem io_dpd_get_status_agrees regs g b :
  0 <= g < 8 -> 0 <= b < 32 ->
  let query r := result (run (tegra186_pmc_io_dpd_get_status g b) r) in
  let e := run (tegra186_pmc_io_dpd_enable g b) regs in
  let d := run (tegra186_pmc_io_dpd_disable g b) regs in
  query regs = (if Z.testbit (reg32 regs (0x78 + g * 8)) b then 1 else 0) /\
  logs_failure (actions e) = (query (final e) =? 0) /\
  logs_failure (actions d) = (query (final d) =? 1).
Proof.
  intros Hg Hb. cbv beta zeta.
  rewrite !io_dpd_get_status_result, !group_status_reg32 by assumption.
  rewrite BIT_in_range, !shiftl_1_testbit by lia.
  rewrite io_dpd_enable_logs, io_dpd_disable_logs.
  rewrite !group_status_reg32, enable_mask_in_range by assumption.
  rewrite !shiftl_1_testbit by lia.
  change (0x78 + g * 8) with (PMC_IO_DPD_STATUS + g * 8).
  repeat split;
    match goal with |- context [Z.testbit ?x b] => destruct (Z.testbit x b) end;
    reflexivity.
Qed.

Lemma io_dpd_get_status_agrees_witness :
  0 <= 2 < 8 /\ 0 <= 5 < 32 /\
  result (run (tegra186_pmc_io_dpd_get_status 2 5) {[ 0x88 := 0x20 ]}) = 1 /\
  result (run (tegra186_pmc_io_dpd_get_status 2 5) {[ 0x88 := 0x1F ]}) = 0.
Proof.
  assert (Hg : 0 <= 2 < 8) by lia.
  assert (Hb : 0 <= 5 < 32) by lia.
  split; [exact Hg|]. split; [exact Hb|]. split.
  - exact (proj1 (io_dpd_get_status_agrees {[ 0x88 := 0x20 ]} 2 5 Hg Hb)).
  - exact (proj1 (io_dpd_get_status_agrees {[ 0x88 := 0x1F ]} 2 5 Hg Hb)).
Defined.

(** ** I/O power status *)

Lemma iopower_get_status_result regs reg bit_mask :
  result (run (tegra_pmc_iopower_get_status reg bit_mask) regs) =
  if c_true (Z.land (reg32 regs reg) bit_mask) then 0 else 1.
Proof.
  unfold tegra_pmc_iopower_get_status, tegra186_pmc_readl.
  cbn [bind run perform].
  change (load regs (to_u32 reg)) with (reg32 regs reg).
  destruct (c_true _); reflexivity.
Qed.

(** X8.  [tegra_pmc_iopower_get_status] reports power on (1) when none of
    the masked no-power bits is set.  Right after
    [tegra_pmc_iopower_enable(reg, mask)] it answers 1; right after
    [tegra_pmc_iopower_disable(reg, mask)] it answers 0, unless the mask is
    empty, in which case it answers 1 whatever the register holds. *)
Theorem iopower_status_round_trip regs reg bit_mask :
  is_u32 bit_mask ->
  let status r := result (run (tegra_pmc_iopower_get_status reg bit_mask) r) in
  status (final (run (tegra_pmc_iopower_enable reg bit_mask) regs)) = 1 /\
  status (final (run (tegra_pmc_iopower_disable reg bit_mask) regs)) =
    (if bit_mask =? 0 then 1 else 0) /\
  result (run (tegra_pmc_iopower_get_status reg 0) regs) = 1.
Proof.
  intros Hm. cbv beta zeta. rewrite !iopower_get_status_result.
  unfold tegra_pmc_iopower_enable, tegra_pmc_iopower_disable.
  rewrite !register_update_in_mask.
  rewrite Z.land_0_l, Z.land_diag, (to_u32_small bit_mask) by exact Hm.
  rewrite Z.land_0_r.
  unfold c_true. repeat split.
  destruct (bit_mask =? 0); reflexivity.
Qed.

Lemma iopower_status_round_trip_witness :
  is_u32 0x30 /\
  result (run (tegra_pmc_iopower_get_status 0x34 0x30)
            (final (run (tegra_pmc_iopower_enable 0x34 0x30) {[ 0x34 := 0xFF ]})))
  = 1 /\
  result (run (tegra_pmc_iopower_get_status 0x34 0x30)
            (final (run (tegra_pmc_iopower_disable 0x34 0x30) {[ 0x34 := 0 ]})))
  = 0.
Proof.
  assert (Hm : is_u32 0x30) by (unfold is_u32; lia).
  split; [exact Hm|]. split.
  - exact (proj1 (iopower_status_round_trip {[ 0x34 := 0xFF ]} 0x34 0x30 Hm)).
  - exact (proj1 (proj2 (iopower_status_round_trip {[ 0x34 := 0 ]} 0x34 0x30 Hm))).
Defined.

(** ** Fuse latch sequences *)

Lemma latch_first_word_bits r (off : Z) i :
  0 <= off -> 0 <= i ->
  Z.testbit (to_u32 (Z.land r (to_u32 (Z.lnot (Z.shiftl 1 off))))) i =
  (i <? 32) && (Z.testbit r i && negb (off =? i)).
Proof.
  intros Hoff Hi.
  rewrite testbit_to_u32, Z.land_spec, testbit_to_u32, Z.lnot_spec,
    Z.shiftl_1_l, Z.pow2_bits_eqb by assumption.
  destruct (i <? 32), (Z.testbit r i), (off =? i); reflexivity.
Qed.

Lemma testbit_latches i :
  0 <= i ->
  Z.testbit (Z.lor PMC_FUSE_CTRL_PS18_LATCH_SET PMC_FUSE_CTRL_PS18_LATCH_CLEAR) i
  = (8 =? i) || (9 =? i).
Proof.
  intros Hi. unfold PMC_FUSE_CTRL_PS18_LATCH_SET, PMC_FUSE_CTRL_PS18_LATCH_CLEAR.
  now rewrite Z.lor_spec, !Z.shiftl_1_l, !Z.pow2_bits_eqb by lia.
Qed.

Lemma latch_word_keeps r (off on : Z) :
  0 <= r < 2 ^ 32 ->
  (off = 8 /\ on = 9) \/ (off = 9 /\ on = 8) ->
  let others :=
    Z.lnot (Z.lor PMC_FUSE_CTRL_PS18_LATCH_SET PMC_FUSE_CTRL_PS18_LATCH_CLEAR) in
  Z.land (to_u32 (Z.lor (Z.land r (to_u32 (Z.lnot (Z.shiftl 1 off))))
                        (Z.shiftl 1 on))) others
  = Z.land r others.
Proof.
  intros Hr Hbits. cbv zeta. apply Z.bits_inj'; intros i Hi.
  rewrite !Z.land_spec, Z.lnot_spec, testbit_latches by assumption.
  rewrite latch_word_bits by (destruct Hbits as [[-> ->]|[-> ->]]; lia).
  rewrite <- (to_u32_small r Hr), testbit_to_u32.
  destruct Hbits as [[-> ->]|[-> ->]];
    destruct (i <? 32), (Z.testbit r i), (8 =? i), (9 =? i); reflexivity.
Qed.

Lemma latch_regs_other (regs : gmap Z Z) v1 v2 reg :
  to_u32 reg <> PMC_FUSE_CTRL ->
  reg32 (<[PMC_FUSE_CTRL := v2]> (<[PMC_FUSE_CTRL := v1]> regs)) reg = reg32 regs reg.
Proof.
  intros H. unfold reg32, load.
  rewrite lookup_insert_ne by congruence.
  now rewrite lookup_insert_ne by congruence.
Qed.

(** X9.  The two PS18 latch sequences, on any register block.  Each reads
    FUSE_CTRL once and writes it twice, every write followed by a 1 ms
    delay.  Neither word written has both latch bits set, so the latch is
    never driven both ways, not even between the two writes.  All bits of
    FUSE_CTRL other than the two latch bits keep their value, and no other
    register changes. *)
Theorem ps18_latch_sequences regs :
  let fuse r := reg32 r PMC_FUSE_CTRL in
  let others :=
    Z.lnot (Z.lor PMC_FUSE_CTRL_PS18_LATCH_SET PMC_FUSE_CTRL_PS18_LATCH_CLEAR) in
  let well_run (c : pmc unit) :=
    (exists v1 v2,
       actions (run c regs) =
       [Readl PMC_FUSE_CTRL (fuse regs);
        Writel v1 PMC_FUSE_CTRL; Mdelay 1;
        Writel v2 PMC_FUSE_CTRL; Mdelay 1]) /\
    never_both_latches (actions (run c regs)) = true /\
    Z.land (fuse (final (run c regs))) others = Z.land (fuse regs) others /\
    (forall reg, to_u32 reg <> PMC_FUSE_CTRL ->
                 reg32 (final (run c regs)) reg = reg32 regs reg) in
  well_run tegra_pmc_fuse_control_ps18_latch_set /\
  well_run tegra_pmc_fuse_control_ps18_latch_clear.
Proof.
  cbv beta zeta. split.
  - rewrite latch_set_fuse_ctrl, latch_set_run. cbv zeta.
    unfold actions, final, fst, snd. repeat split.
    + eexists _, _. reflexivity.
    + unfold never_both_latches. cbn [forallb].
      unfold PMC_FUSE_CTRL_PS18_LATCH_CLEAR, PMC_FUSE_CTRL_PS18_LATCH_SET.
      rewrite !latch_first_word_bits, !latch_word_bits by lia.
      cbn. now rewrite !andb_false_r.
    + apply latch_word_keeps; [apply reg32_range | now right].
    + intros reg Hreg. now apply latch_regs_other.
  - rewrite latch_clear_fuse_ctrl, latch_clear_run. cbv zeta.
    unfold actions, final, fst, snd. repeat split.
    + eexists _, _. reflexivity.
    + unfold never_both_latches. cbn [forallb].
      unfold PMC_FUSE_CTRL_PS18_LATCH_CLEAR, PMC_FUSE_CTRL_PS18_LATCH_SET.
      rewrite !latch_first_word_bits, !latch_word_bits by lia.
      cbn. now rewrite !andb_false_r.
    + apply latch_word_keeps; [apply reg32_range | now left].
    + intros reg Hreg. now apply latch_regs_other.
Qed.

(** ** Mirror redirection as a two-state switch *)

Lemma enable_mirroring_sets regs :
  c_true (Z.land (reg32 (final (run tegra_pmc_fuse_enable_mirroring regs))
                        PMC_FUSE_CTRL)
                 PMC_FUSE_CTRL_ENABLE_REDIRECTION) = true.
Proof.
  rewrite enable_mirroring_run. cbv zeta.
  destruct (c_true (Z.land (reg32 regs PMC_FUSE_CTRL) _)) eqn:Hbit;
    unfold final, fst, snd.
  - exact Hbit.
  - now rewrite fuse_ctrl_after_write.
Qed.

Lemma disable_mirroring_clears regs :
  c_true (Z.land (reg32 (final (run tegra_pmc_fuse_disable_mirroring regs))
                        PMC_FUSE_CTRL)
                 PMC_FUSE_CTRL_ENABLE_REDIRECTION) = false.
Proof.
  rewrite disable_mirroring_run. cbv zeta.
  destruct (c_true (Z.land (reg32 regs PMC_FUSE_CTRL) _)) eqn:Hbit;
    unfold final, fst, snd.
  - now rewrite fuse_ctrl_after_write.
  - exact Hbit.
Qed.

Lemma mirroring_other_regs regs reg :
  to_u32 reg <> PMC_FUSE_CTRL ->
  reg32 (final (run tegra_pmc_fuse_enable_mirroring regs)) reg = reg32 regs reg /\
  reg32 (final (run tegra_pmc_fuse_disable_mirroring regs)) reg = reg32 regs reg.
Proof.
  intros Hreg. rewrite enable_mirroring_run, disable_mirroring_run. cbv zeta.
  destruct (c_true _); unfold final, fst, snd; split; try reflexivity;
    unfold reg32, load; now rewrite lookup_insert_ne by congruence.
Qed.

(** X10.  The two mirroring routines look at the ENABLE_REDIRECTION bit
    only.  After [tegra_pmc_fuse_enable_mirroring] that bit is set, after
    [tegra_pmc_fuse_disable_mirroring] it is clear.  A switch in the other
    direction therefore always writes: disable followed by enable leaves
    FUSE_CTRL as exactly ENABLE_REDIRECTION (1), enable followed by disable
    as exactly DISABLE_REDIRECTION (2), whatever the register held before;
    a block whose ENABLE_REDIRECTION bit is clear is left untouched by
    disable even when its DISABLE_REDIRECTION bit is clear too.  No other
    register changes. *)
Theorem mirroring_switch regs :
  let fuse r := reg32 r PMC_FUSE_CTRL in
  let enable r := final (run tegra_pmc_fuse_enable_mirroring r) in
  let disable r := final (run tegra_pmc_fuse_disable_mirroring r) in
  let enabled r := c_true (Z.land (fuse r) PMC_FUSE_CTRL_ENABLE_REDIRECTION) in
  (enabled (enable regs) = true /\ enabled (disable regs) = false) /\
  (fuse (enable (disable regs)) = PMC_FUSE_CTRL_ENABLE_REDIRECTION /\
   fuse (disable (enable regs)) = PMC_FUSE_CTRL_DISABLE_REDIRECTION) /\
  (disable regs = if enabled regs
                  then <[PMC_FUSE_CTRL := PMC_FUSE_CTRL_DISABLE_REDIRECTION]> regs
                  else regs) /\
  (forall reg, to_u32 reg <> PMC_FUSE_CTRL ->
     reg32 (enable (disable regs)) reg = reg32 regs reg /\
     reg32 (disable (enable regs)) reg = reg32 regs reg).
Proof.
  cbv beta zeta.
  split; [split; [apply enable_mirroring_sets | apply disable_mirroring_clears]|].
  split; [split|split].
  - rewrite enable_mirroring_run. cbv zeta.
    rewrite disable_mirroring_clears. unfold final, fst, snd.
    now rewrite fuse_ctrl_after_write.
  - rewrite disable_mirroring_run. cbv zeta.
    rewrite enable_mirroring_sets. unfold final, fst, snd.
    now rewrite fuse_ctrl_after_write.
  - rewrite disable_mirroring_run. cbv zeta.
    destruct (c_true _); reflexivity.
  - intros reg Hreg. split.
    + rewrite (proj1 (mirroring_other_regs _ reg Hreg)).
      apply (mirroring_other_regs regs reg Hreg).
    + rewrite (proj2 (mirroring_other_regs _ reg Hreg)).
      apply (mirroring_other_regs regs reg Hreg).
Qed.

(** ** NVCSI brick DPD against the guarded brick updates *)

Lemma updated_set r m :
  is_u32 r -> is_u32 m -> updated r m m = Z.lor r m.
Proof.
  intros Hr Hm. unfold updated.
  rewrite <- (to_u32_small r Hr), <- (to_u32_small m Hm).
  bits i Hi. bool_cases.
Qed.

Lemma updated_clear r m :
  is_u32 r -> updated r m 0 = Z.land r (Z.lnot m).
Proof.
  intros Hr. unfold updated.
  rewrite <- (to_u32_small r Hr).
  bits i Hi. rewrite Z.bits_0. bool_cases.
Qed.

Lemma brick_updates_final regs v1 v2 :
  final (run (tegra_pmc_nvcsi_cdef_brick_update 0x7800 v2)
          (final (run (tegra_pmc_nvcsi_ab_brick_update 0x3 v1) regs))) =
  <[PMC_IO_DPD2_REQ := updated (reg32 regs PMC_IO_DPD2_REQ) 0x7800 v2]>
    (<[PMC_IO_DPD_REQ := updated (reg32 regs PMC_IO_DPD_REQ) 0x3 v1]> regs).
Proof.
  change (tegra_pmc_nvcsi_ab_brick_update 0x3 v1)
    with (tegra186_pmc_register_update PMC_IO_DPD_REQ 0x3 v1).
  change (tegra_pmc_nvcsi_cdef_brick_update 0x7800 v2)
    with (tegra186_pmc_register_update PMC_IO_DPD2_REQ 0x7800 v2).
  rewrite !register_update_final.
  change (to_u32 PMC_IO_DPD_REQ) with PMC_IO_DPD_REQ.
  change (to_u32 PMC_IO_DPD2_REQ) with PMC_IO_DPD2_REQ.
  now rewrite brick_req2_before.
Qed.

(** X11.  Run alone, the two open-coded brick routines leave exactly the
    register block the guarded brick updates leave:
    [tegra186_pmc_enable_nvcsi_brick_dpd] that of
    [tegra_pmc_nvcsi_ab_brick_update(0x3, 0x3)] followed by
    [tegra_pmc_nvcsi_cdef_brick_update(0x7800, 0x7800)], and
    [tegra186_pmc_disable_nvcsi_brick_dpd] that of the same two updates
    with value 0.  They differ from them only in not taking the lock. *)
Theorem nvcsi_brick_dpd_as_updates regs :
  final (run tegra186_pmc_enable_nvcsi_brick_dpd regs) =
    final (run (tegra_pmc_nvcsi_cdef_brick_update 0x7800 0x7800)
            (final (run (tegra_pmc_nvcsi_ab_brick_update 0x3 0x3) regs))) /\
  final (run tegra186_pmc_disable_nvcsi_brick_dpd regs) =
    final (run (tegra_pmc_nvcsi_cdef_brick_update 0x7800 0)
            (final (run (tegra_pmc_nvcsi_ab_brick_update 0x3 0) regs))) /\
  lock_free (actions (run tegra186_pmc_enable_nvcsi_brick_dpd regs)) = true /\
  lock_free (actions (run tegra186_pmc_disable_nvcsi_brick_dpd regs)) = true.
Proof.
  rewrite !brick_updates_final.
  rewrite enable_nvcsi_brick_dpd_run, disable_nvcsi_brick_dpd_run. cbv zeta.
  unfold final, actions, fst, snd.
  assert (H3 : is_u32 0x3) by (unfold is_u32; lia).
  assert (H7 : is_u32 0x7800) by (unfold is_u32; lia).
  rewrite !updated_set, !updated_clear by (assumption || apply reg32_is_u32).
  repeat split; reflexivity.
Qed.

Lemma enable_brick_reg32 regs reg :
  reg32 (final (run tegra186_pmc_enable_nvcsi_brick_dpd regs)) reg =
  if to_u32 reg =? PMC_IO_DPD_REQ then Z.lor (reg32 regs PMC_IO_DPD_REQ) 0x3
  else if to_u32 reg =? PMC_IO_DPD2_REQ then Z.lor (reg32 regs PMC_IO_DPD2_REQ) 0x7800
       else reg32 regs reg.
Proof.
  rewrite enable_nvcsi_brick_dpd_run. cbv zeta. unfold final, fst, snd.
  assert (H3 : is_u32 0x3) by (unfold is_u32; lia).
  assert (H7 : is_u32 0x7800) by (unfold is_u32; lia).
  destruct (Z.eqb_spec (to_u32 reg) PMC_IO_DPD_REQ) as [H1|H1].
  - unfold reg32 at 1, load. rewrite H1.
    rewrite lookup_insert_ne by discriminate.
    rewrite lookup_insert_eq.
    apply to_u32_small, lor_u32; [apply reg32_is_u32 | assumption].
  - destruct (Z.eqb_spec (to_u32 reg) PMC_IO_DPD2_REQ) as [H2|H2].
    + unfold reg32 at 1, load. rewrite H2, lookup_insert_eq.
      apply to_u32_small, lor_u32; [apply reg32_is_u32 | assumption].
    + now apply brick_regs_other.
Qed.

Lemma disable_brick_reg32 regs reg :
  reg32 (final (run tegra186_pmc_disable_nvcsi_brick_dpd regs)) reg =
  if to_u32 reg =? PMC_IO_DPD_REQ then Z.land (reg32 regs PMC_IO_DPD_REQ) (Z.lnot 0x3)
  else if to_u32 reg =? PMC_IO_DPD2_REQ
       then Z.land (reg32 regs PMC_IO_DPD2_REQ) (Z.lnot 0x7800)
       else reg32 regs reg.
Proof.
  rewrite disable_nvcsi_brick_dpd_run. cbv zeta. unfold final, fst, snd.
  destruct (Z.eqb_spec (to_u32 reg) PMC_IO_DPD_REQ) as [H1|H1].
  - unfold reg32 at 1, load. rewrite H1.
    rewrite lookup_insert_ne by discriminate.
    rewrite lookup_insert_eq.
    apply to_u32_small, land_lnot_u32, reg32_is_u32.
  - destruct (Z.eqb_spec (to_u32 reg) PMC_IO_DPD2_REQ) as [H2|H2].
    + unfold reg32 at 1, load. rewrite H2, lookup_insert_eq.
      apply to_u32_small, land_lnot_u32, reg32_is_u32.
    + now apply brick_regs_other.
Qed.

Lemma set_then_clear r m : Z.land (Z.lor r m) (Z.lnot m) = Z.land r (Z.lnot m).
Proof.
  apply Z.bits_inj'; intros i Hi.
  rewrite !Z.land_spec, Z.lor_spec, Z.lnot_spec by assumption.
  destruct (Z.testbit r i), (Z.testbit m i); reflexivity.
Qed.

Lemma clear_then_set r m : Z.lor (Z.land r (Z.lnot m)) m = Z.lor r m.
Proof.
  apply Z.bits_inj'; intros i Hi.
  rewrite !Z.lor_spec, Z.land_spec, Z.lnot_spec by assumption.
  destruct (Z.testbit r i), (Z.testbit m i); reflexivity.
Qed.

Lemma set_twice r m : Z.lor (Z.lor r m) m = Z.lor r m.
Proof. now rewrite <- Z.lor_assoc, Z.lor_diag. Qed.

Lemma clear_twice r m : Z.land (Z.land r (Z.lnot m)) (Z.lnot m) = Z.land r (Z.lnot m).
Proof. now rewrite <- Z.land_assoc, Z.land_diag. Qed.

(** X12.  How the two brick routines compose, register by register: each
    is idempotent, and each overrides the other, so what the block holds
    after a run of enables and disables is decided by the last call alone. *)
Theorem nvcsi_brick_dpd_last_call_decides regs reg :
  let en r := final (run tegra186_pmc_enable_nvcsi_brick_dpd r) in
  let dis r := final (run tegra186_pmc_disable_nvcsi_brick_dpd r) in
  reg32 (en (en regs)) reg = reg32 (en regs) reg /\
  reg32 (dis (dis regs)) reg = reg32 (dis regs) reg /\
  reg32 (en (dis regs)) reg = reg32 (en regs) reg /\
  reg32 (dis (en regs)) reg = reg32 (dis regs) reg.
Proof.
  cbv beta zeta.
  rewrite !(enable_brick_reg32 _ reg), !(disable_brick_reg32 _ reg).
  destruct (to_u32 reg =? PMC_IO_DPD_REQ) eqn:H1.
  - rewrite !(enable_brick_reg32 _ PMC_IO_DPD_REQ),
      !(disable_brick_reg32 _ PMC_IO_DPD_REQ).
    change (to_u32 PMC_IO_DPD_REQ =? PMC_IO_DPD_REQ) with true. cbv iota.
    now rewrite set_twice, clear_twice, set_then_clear, clear_then_set.
  - destruct (to_u32 reg =? PMC_IO_DPD2_REQ) eqn:H2.
    + rewrite !(enable_brick_reg32 _ PMC_IO_DPD2_REQ),
        !(disable_brick_reg32 _ PMC_IO_DPD2_REQ).
      change (to_u32 PMC_IO_DPD2_REQ =? PMC_IO_DPD_REQ) with false.
      change (to_u32 PMC_IO_DPD2_REQ =? PMC_IO_DPD2_REQ) with true. cbv iota.
      now rewrite set_twice, clear_twice, set_then_clear, clear_then_set.
    + repeat (rewrite ?(enable_brick_reg32 _ reg), ?(disable_brick_reg32 _ reg),
                ?H1, ?H2).
      repeat split; reflexivity.
Qed.

(** ** Critical sections *)

Ltac section_steps :=
  repeat first
    [ progress cbn [bind]
    | progress intros
    | match goal with
      | |- section_body (Do ?a _) =>
          first [ eapply body_unlock; [reflexivity | intro; reflexivity]
                | apply body_step; [reflexivity | reflexivity | ] ]
      | |- section_body (bind (if ?c then _ else _) _) => destruct c
      | |- section_body (if ?c then _ else _) => destruct c
      end ].

Ltac critical_section :=
  intros;
  unfold tegra186_pmc_register_update, tegra_pmc_pad_voltage_update,
    tegra_pmc_nvcsi_ab_brick_update, tegra_pmc_nvcsi_cdef_brick_update,
    tegra_pmc_ufs_pwrcntrl_update, tegra_pmc_sata_pwrgt_update,
    tegra_pmc_iopower_enable, tegra_pmc_iopower_disable,
    tegra186_pmc_register_update,
    tegra186_pmc_io_dpd_enable, tegra186_pmc_io_dpd_disable,
    _tegra186_pmc_register_update, tegra186_pmc_readl, tegra186_pmc_writel,
    spin_lock, spin_unlock, spin_lock_irqsave, spin_unlock_irqrestore,
    udelay, mdelay, pr_info, ret;
  cbn [bind];
  apply critical_intro; [reflexivity | section_steps].

Lemma register_update_critical offset mask val :
  critical (tegra186_pmc_register_update offset mask val).
Proof. critical_section. Qed.

Lemma io_dpd_enable_critical reg bit_pos :
  critical (tegra186_pmc_io_dpd_enable reg bit_pos).
Proof. critical_section. Qed.

Lemma io_dpd_disable_critical reg bit_pos :
  critical (tegra186_pmc_io_dpd_disable reg bit_pos).
Proof. critical_section. Qed.

(** X13.  Every routine of the driver that takes
    [tegra186_pmc_access_lock] is a critical section on every path: the
    lock is the first thing it takes, it performs no lock operation while
    it reads, writes, waits and logs, and releasing the lock is the last
    thing it does before it returns.  This covers the update primitive,
    its five wrappers, the two I/O power routines and the two DPD
    sequences, the log branch of the latter included. *)
Theorem locked_routines_are_critical (reg mask val bit_pos : Z) :
  critical (tegra186_pmc_register_update reg mask val) /\
  critical (tegra_pmc_pad_voltage_update reg mask val) /\
  critical (tegra_pmc_nvcsi_ab_brick_update mask val) /\
  critical (tegra_pmc_nvcsi_cdef_brick_update mask val) /\
  critical (tegra_pmc_ufs_pwrcntrl_update mask val) /\
  critical (tegra_pmc_sata_pwrgt_update mask val) /\
  critical (tegra_pmc_iopower_enable reg mask) /\
  critical (tegra_pmc_iopower_disable reg mask) /\
  critical (tegra186_pmc_io_dpd_enable reg bit_pos) /\
  critical (tegra186_pmc_io_dpd_disable reg bit_pos).
Proof.
  repeat match goal with |- _ /\ _ => split end; critical_section.
Qed.

(** *** Two critical sections from two contexts *)

Lemma step_plain {A} regs held (a : action) (k : Z -> pmc A) :
  is_lock a = false -> is_unlock a = false ->
  step regs held (Do a k) =
  Some (snd (fst (perform a regs)), held, k (fst (fst (perform a regs)))).
Proof. intros Hl Hu. destruct a; try discriminate; reflexivity. Qed.

Lemma step_unlock {A} regs held (a : action) (k : Z -> pmc A) :
  is_unlock a = true -> step regs held (Do a k) = Some (regs, false, k 0).
Proof. intros Hu. destruct a; try discriminate; reflexivity. Qed.

Lemma step_lock {A} regs held (a : action) (k : Z -> pmc A) :
  is_lock a = true ->
  step regs held (Do a k) = if held then None else Some (regs, true, k 0).
Proof. intros Hl. destruct a; try discriminate; reflexivity. Qed.

Lemma run_Do_final {A} (a : action) (k : Z -> pmc A) regs :
  final (run (Do a k) regs) =
  final (run (k (fst (fst (perform a regs)))) (snd (fst (perform a regs)))).
Proof.
  cbn [run]. destruct (perform a regs) as [[v regs1] e]. cbn [fst snd].
  destruct (run (k v) regs1) as [[r regs2] t]. reflexivity.
Qed.

Lemma run_sync_final {A} (a : action) (k : Z -> pmc A) regs :
  is_lock a = true \/ is_unlock a = true ->
  final (run (Do a k) regs) = final (run (k 0) regs).
Proof.
  intros H. rewrite run_Do_final.
  destruct a; destruct H as [H|H]; try discriminate H; reflexivity.
Qed.

(** A context whose partner has returned runs the rest of its section as
    if alone. *)
Lemma body_alone {A B} (c2 : pmc B) :
  section_body c2 ->
  forall s regs held (a : A) regs' h a' b,
    interleave s regs held (Ret a) c2 = Some (regs', h, Ret a', Ret b) ->
    regs' = final (run c2 regs).
Proof.
  induction 1 as [u k r Hu Hk | u k Hl Hu Hk IH];
    intros s regs held a regs' h a' b Hs.
  - destruct s as [|[|] s]; cbn [interleave] in Hs; try discriminate Hs.
    rewrite step_unlock, Hk in Hs by assumption.
    destruct s as [|[|] s]; cbn [interleave step] in Hs; try discriminate Hs.
    injection Hs as <- _ _ _.
    rewrite run_sync_final by now right. now rewrite Hk.
  - destruct s as [|[|] s]; cbn [interleave] in Hs; try discriminate Hs.
    rewrite step_plain in Hs by assumption.
    rewrite run_Do_final. eapply IH, Hs.
Qed.

Lemma critical_alone {A B} (c2 : pmc B) :
  critical c2 ->
  forall s regs (a : A) regs' h a' b,
    interleave s regs false (Ret a) c2 = Some (regs', h, Ret a', Ret b) ->
    regs' = final (run c2 regs).
Proof.
  intros [l k Hl Hk] s regs a regs' h a' b Hs.
  destruct s as [|[|] s]; cbn [interleave] in Hs; try discriminate Hs.
  rewrite step_lock in Hs by assumption.
  rewrite run_sync_final by now left.
  eapply body_alone; [apply Hk | exact Hs].
Qed.

(** While the first context is inside its section the second, waiting for
    the lock, cannot move: the first finishes, then the second runs. *)
Lemma body_first {A B} (c1 : pmc A) :
  section_body c1 ->
  forall (c2 : pmc B), critical c2 ->
  forall s regs regs' h a b,
    interleave s regs true c1 c2 = Some (regs', h, Ret a, Ret b) ->
    regs' = final (run c2 (final (run c1 regs))).
Proof.
  induction 1 as [u k r Hu Hk | u k Hl Hu Hk IH];
    intros c2 Hc2 s regs regs' h a b Hs.
  - destruct s as [|[|] s]; cbn [interleave] in Hs; try discriminate Hs.
    + destruct Hc2 as [l k2 Hl2 Hk2].
      rewrite step_lock in Hs by assumption. discriminate Hs.
    + rewrite step_unlock, Hk in Hs by assumption.
      rewrite run_sync_final by now right. rewrite Hk.
      eapply critical_alone; [exact Hc2 | exact Hs].
  - destruct s as [|[|] s]; cbn [interleave] in Hs; try discriminate Hs.
    + destruct Hc2 as [l k2 Hl2 Hk2].
      rewrite step_lock in Hs by assumption. discriminate Hs.
    + rewrite step_plain in Hs by assumption.
      rewrite run_Do_final. eapply IH; [exact Hc2 | exact Hs].
Qed.

Lemma interleave_swap {A B} s regs held (c1 : pmc A) (c2 : pmc B) :
  interleave (map negb s) regs held c2 c1 =
  match interleave s regs held c1 c2 with
  | Some (regs', h, c1', c2') => Some (regs', h, c2', c1')
  | None => None
  end.
Proof.
  revert regs held c1 c2. induction s as [|[|] s IH]; intros regs held c1 c2;
    cbn [map negb interleave]; [reflexivity | |].
  - destruct (step regs held c2) as [[[regs1 h1] c2']|]; [apply IH | reflexivity].
  - destruct (step regs held c1) as [[[regs1 h1] c1']|]; [apply IH | reflexivity].
Qed.

Lemma critical_first {A B} (c1 : pmc A) (c2 : pmc B) s regs regs' h a b :
  critical c1 -> critical c2 ->
  interleave (false :: s) regs false c1 c2 = Some (regs', h, Ret a, Ret b) ->
  regs' = final (run c2 (final (run c1 regs))).
Proof.
  intros Hc1 Hc2 Hs. destruct Hc1 as [l k Hl Hk].
  cbn [interleave] in Hs. rewrite step_lock in Hs by assumption.
  rewrite (run_sync_final l) by now left.
  eapply body_first; [apply Hk | exact Hc2 | exact Hs].
Qed.

(** X14.  Mutual exclusion.  When two critical sections are called from
    two contexts, every schedule that runs both to their return leaves the
    register block that one of the two serial orders leaves: whichever
    takes the lock first finishes before the other starts, so no step of
    one falls between the steps of the other. *)
Theorem critical_sections_serialise {A B : Type} (c1 : pmc A) (c2 : pmc B)
    (s : list bool) (regs regs' : gmap Z Z) :
  critical c1 -> critical c2 ->
  completes s regs c1 c2 regs' ->
  regs' = final (run c2 (final (run c1 regs))) \/
  regs' = final (run c1 (final (run c2 regs))).
Proof.
  intros Hc1 Hc2 (h & a & b & Hs).
  destruct s as [|[|] s].
  - destruct Hc1 as [l k Hl Hk]. cbn [interleave] in Hs. discriminate Hs.
  - right.
    pose proof (interleave_swap (true :: s) regs false c1 c2) as Hsw.
    rewrite Hs in Hsw. cbn [map negb] in Hsw.
    eapply critical_first; [exact Hc2 | exact Hc1 | exact Hsw].
  - left. eapply critical_first; [exact Hc1 | exact Hc2 | exact Hs].
Qed.

Lemma critical_sections_serialise_witness :
  let c1 := tegra186_pmc_io_dpd_enable 0 1 in
  let c2 := tegra186_pmc_register_update 0x74 0x4 0x4 in
  let s := [true; true; true; true;
            false; false; false; false; false; false; false] in
  let regs' := final (run c1 (final (run c2 ∅))) in
  critical c1 /\ critical c2 /\ completes s ∅ c1 c2 regs' /\
  (regs' = final (run c2 (final (run c1 ∅))) \/
   regs' = final (run c1 (final (run c2 ∅)))).
Proof.
  cbv zeta.
  assert (Hc1 := io_dpd_enable_critical 0 1).
  assert (Hc2 := register_update_critical 0x74 0x4 0x4).
  assert (Hs : completes [true; true; true; true;
                          false; false; false; false; false; false; false]
                 ∅ (tegra186_pmc_io_dpd_enable 0 1)
                 (tegra186_pmc_register_update 0x74 0x4 0x4)
                 (final (run (tegra186_pmc_io_dpd_enable 0 1)
                           (final (run (tegra186_pmc_register_update 0x74 0x4 0x4)
                                     ∅))))).
  { exists false, 0, tt. vm_compute. reflexivity. }
  split; [exact Hc1|]. split; [exact Hc2|]. split; [exact Hs|].
  exact (critical_sections_serialise _ _ _ _ _ Hc1 Hc2 Hs).
Defined.

(** ** Device-tree setup and the halt-in-FIQ flag *)



